(** * ELT: undo/redo history, class colours and alignment gestures

    A shallow embedding of the non-rendering logic of the ELT desktop
    application:

    - [HistoryTracker]  : [stores/dataStructures/HistoryTracker.ts]
    - [Dataset]         : the shapes of [dataStructures/dataset] and
                          [dataStructures/alignment] that the store reads
    - [LabelingStore]   : the labeling store (classes, colours, labels,
                          aligned dataset)
    - [AlignmentView]   : the two drag gestures of the alignment view
                          (click-or-pan on a track, correspondence creation)

    JavaScript arrays are lists ([push] appends at the end), a number is an
    IEEE 754 double (the primitive [float], with its own arithmetic and
    comparisons), an object used as a dictionary is a [gmap] of its own
    properties together with its prototype, and the three-way distinction
    [undefined] / [null] / value is kept where the code tests it. *)

From Stdlib Require Import Floats.
From stdpp Require Import base numbers strings option gmap fin_maps list.

Local Open Scope Z_scope.

(** ** JavaScript values that may be [undefined] or [null] *)

Inductive js (A : Type) : Type :=
| undefined : js A
| null : js A
| val : A → js A.
Arguments undefined {A}.
Arguments null {A}.
Arguments val {A} _.

(** [Array.prototype.indexOf]: first position of [x], [-1] when absent. *)
Fixpoint indexOf `{EqDecision A} (x : A) (l : list A) : Z :=
  match l with
  | [] => -1
  | y :: l' =>
      if decide (y = x) then 0
      else let r := indexOf x l' in if decide (0 ≤ r) then r + 1 else -1
  end.

(** [a.splice(i, 1)] for a non-negative index [i]: the removed elements and
    the array that is left. *)
Definition splice1 {A} (i : nat) (l : list A) : list A * list A :=
  (take 1 (drop i l), take i l ++ drop (S i) l).

(** *** Facts about [indexOf] and [splice1] *)

Lemma indexOf_found `{EqDecision A} (x : A) (l : list A) :
  0 ≤ indexOf x l ↔ x ∈ l.
Proof.
  induction l as [|y l IH]; cbn [indexOf].
  - split; [lia|]. intros H; inversion H.
  - destruct (decide (y = x)) as [->|Hne].
    + split; [intros _; left|lia].
    + destruct (decide (0 ≤ indexOf x l)) as [Hpos|Hneg].
      * split; [intros _; right; by apply IH|lia].
      * split; [lia|]. intros Hin. apply elem_of_cons in Hin. destruct Hin as [->|Hin]; [done|].
        apply IH in Hin. lia.
Qed.

Lemma indexOf_absent `{EqDecision A} (x : A) (l : list A) :
  indexOf x l < 0 ↔ x ∉ l.
Proof. rewrite <- indexOf_found. lia. Qed.

(** The index [indexOf] finds splits the list at the first occurrence. *)
Lemma indexOf_split `{EqDecision A} (x : A) (l : list A) :
  0 ≤ indexOf x l →
  ∃ l1 l2, l = l1 ++ x :: l2 ∧ (x ∉ l1) ∧ Z.to_nat (indexOf x l) = length l1.
Proof.
  induction l as [|y l IH]; cbn [indexOf]; [lia|].
  destruct (decide (y = x)) as [->|Hne].
  - intros _. exists [], l. split; [done|]. split; [|done].
    intros H; inversion H.
  - destruct (decide (0 ≤ indexOf x l)) as [Hpos|Hneg]; [|lia].
    intros _. destruct (IH Hpos) as (l1 & l2 & -> & Hnot & Hlen).
    exists (y :: l1), l2. split; [done|]. split.
    + intros Hin. apply elem_of_cons in Hin. destruct Hin as [->|Hin]; done.
    + cbn [length]. lia.
Qed.

Lemma splice1_middle {A} (l1 l2 : list A) (x : A) :
  splice1 (length l1) (l1 ++ x :: l2) = ([x], l1 ++ l2).
Proof.
  unfold splice1. f_equal.
  - rewrite drop_app_length. reflexivity.
  - rewrite take_app_length.
    replace (S (length l1)) with (length l1 + 1)%nat by lia.
    rewrite <- drop_drop, drop_app_length. reflexivity.
Qed.

(** ** HistoryTracker.ts *)

Module HistoryTracker.
Section tracker.
(** Snapshots are opaque.  The class is compiled without strict null
    checks, so [null] and [undefined] inhabit [Snapshot]; they are the two
    distinguished elements below. *)
Context {Snapshot : Type}.
Variable null_snapshot : Snapshot.
Variable undefined_snapshot : Snapshot.

Record t : Type := Build {
  _undoHistory : list Snapshot;
  _redoHistory : list Snapshot
}.

(** [constructor] (and [reset], which has the same body). *)
Definition create : t := {| _undoHistory := []; _redoHistory := [] |}.
Definition reset (h : t) : t := {| _undoHistory := []; _redoHistory := [] |}.

Definition add (item : Snapshot) (h : t) : t :=
  {| _undoHistory := _undoHistory h ++ [item]; _redoHistory := [] |}.

(** [const [lastItem] = a.splice(lastIndex, 1)]: the first element of the
    removed slice, [undefined] if the slice is empty. *)
Definition first_removed (removed : list Snapshot) : Snapshot :=
  match removed with x :: _ => x | [] => undefined_snapshot end.

Definition undo (current : Snapshot) (h : t) : Snapshot * t :=
  let lastIndex := Z.of_nat (length (_undoHistory h)) - 1 in
  if decide (0 ≤ lastIndex) then
    let '(removed, rest) := splice1 (Z.to_nat lastIndex) (_undoHistory h) in
    (first_removed removed,
     {| _undoHistory := rest; _redoHistory := _redoHistory h ++ [current] |})
  else (null_snapshot, h).

Definition redo (current : Snapshot) (h : t) : Snapshot * t :=
  let lastIndex := Z.of_nat (length (_redoHistory h)) - 1 in
  if decide (0 ≤ lastIndex) then
    let '(removed, rest) := splice1 (Z.to_nat lastIndex) (_redoHistory h) in
    (first_removed removed,
     {| _undoHistory := _undoHistory h ++ [current]; _redoHistory := rest |})
  else (null_snapshot, h).

Definition canUndo (h : t) : bool :=
  bool_decide (0 < Z.of_nat (length (_undoHistory h))).

(** Spelled [canRndo] in the source. *)
Definition canRndo (h : t) : bool :=
  bool_decide (0 < Z.of_nat (length (_redoHistory h))).

(** *** Popping the last element *)

Lemma splice1_last (l : list Snapshot) (x : Snapshot) :
  splice1 (Z.to_nat (Z.of_nat (length (l ++ [x])) - 1)) (l ++ [x]) = ([x], l).
Proof.
  rewrite length_app. simpl.
  replace (Z.to_nat (Z.of_nat (length l + 1) - 1)) with (length l) by lia.
  unfold splice1. f_equal.
  - rewrite drop_app_length. reflexivity.
  - rewrite take_app_length.
    rewrite drop_ge; [apply app_nil_r|]. rewrite length_app. simpl. lia.
Qed.

Lemma undo_snoc (current x : Snapshot) (us rs : list Snapshot) :
  undo current {| _undoHistory := us ++ [x]; _redoHistory := rs |}
  = (x, {| _undoHistory := us; _redoHistory := rs ++ [current] |}).
Proof.
  unfold undo. cbn [_undoHistory _redoHistory].
  rewrite splice1_last.
  destruct (decide _) as [_|Hneg]; [reflexivity|].
  exfalso. apply Hneg. rewrite length_app. simpl. lia.
Qed.

Lemma redo_snoc (current x : Snapshot) (us rs : list Snapshot) :
  redo current {| _undoHistory := us; _redoHistory := rs ++ [x] |}
  = (x, {| _undoHistory := us ++ [current]; _redoHistory := rs |}).
Proof.
  unfold redo. cbn [_undoHistory _redoHistory].
  rewrite splice1_last.
  destruct (decide _) as [_|Hneg]; [reflexivity|].
  exfalso. apply Hneg. rewrite length_app. simpl. lia.
Qed.

Lemma nonempty_snoc (l : list Snapshot) :
  l ≠ [] → ∃ l' x, l = l' ++ [x].
Proof.
  induction l as [|x l' _] using rev_ind; [done|eauto].
Qed.

(** C1. With a non-empty undo history, [undo current] returning a
    non-null snapshot [s] followed by [redo s] returns [current] and
    restores the tracker: the undo history and the redo history are both
    back to what they were before the undo. *)
Theorem undo_redo_roundtrip (h : t) (current s : Snapshot) (h' : t) :
  _undoHistory h ≠ [] →
  undo current h = (s, h') →
  s ≠ null_snapshot →
  ∃ h'', redo s h' = (current, h'')
         ∧ _undoHistory h'' = _undoHistory h
         ∧ _redoHistory h'' = _redoHistory h.
Proof.
  intros Hne Hundo _. destruct h as [us rs]. cbn [_undoHistory] in Hne.
  destruct (nonempty_snoc us Hne) as (us' & x & ->).
  rewrite undo_snoc in Hundo. inversion Hundo; subst s h'; clear Hundo.
  rewrite redo_snoc. eexists. split; [reflexivity|]. split; reflexivity.
Qed.

(** C2. After [add s], whatever the tracker held before, [s] is the last
    entry of the undo history, [canUndo] answers true, the redo history is
    empty and [canRndo] answers false. *)
Theorem add_invalidates_redo (h : t) (s : Snapshot) :
  last (_undoHistory (add s h)) = Some s
  ∧ canUndo (add s h) = true
  ∧ _redoHistory (add s h) = []
  ∧ canRndo (add s h) = false.
Proof.
  unfold add, canUndo, canRndo. cbn [_undoHistory _redoHistory].
  split; [apply last_snoc|]. split; [|split; reflexivity].
  apply bool_decide_eq_true. rewrite length_app. simpl. lia.
Qed.

(** C3. On an empty undo history [undo current] returns the null sentinel
    and leaves both sequences as they were ([current] is not pushed onto
    the redo history); on an empty redo history [redo current] does the
    same. *)
Theorem undo_redo_empty (h : t) (current : Snapshot) :
  (_undoHistory h = [] → undo current h = (null_snapshot, h))
  ∧ (_redoHistory h = [] → redo current h = (null_snapshot, h)).
Proof.
  split; intros Hnil; [unfold undo|unfold redo]; rewrite Hnil;
    reflexivity.
Qed.

End tracker.

(** A tracker over numbers (0 plays [null], 1 plays [undefined]) holding
    [u3 - u2 - u1] before the current state and [r1] after it. *)
Definition sample : @t nat :=
  {| _undoHistory := [13; 12; 11]%nat; _redoHistory := [21]%nat |}.

Lemma undo_redo_roundtrip_witness :
  ∃ h'', redo 0%nat 1%nat 11%nat
           {| _undoHistory := [13; 12]%nat; _redoHistory := [21; 50]%nat |}
         = (50%nat, h'')
         ∧ _undoHistory h'' = _undoHistory sample
         ∧ _redoHistory h'' = _redoHistory sample.
Proof.
  apply (undo_redo_roundtrip 0%nat 1%nat sample 50%nat 11%nat
           {| _undoHistory := [13; 12]%nat; _redoHistory := [21; 50]%nat |}).
  - discriminate.
  - reflexivity.
  - discriminate.
Defined.

Lemma undo_redo_empty_witness :
  undo 0%nat 1%nat 50%nat create = (0%nat, create)
  ∧ redo 0%nat 1%nat 50%nat create = (0%nat, create).
Proof.
  destruct (undo_redo_empty 0%nat 1%nat (@create nat) 50%nat) as [Hu Hr].
  split; [apply Hu|apply Hr]; reflexivity.
Defined.

(** *** Sequences of undo and redo *)

Section history.
Context {Snapshot : Type}.
Variable null_snapshot : Snapshot.
Variable undefined_snapshot : Snapshot.

Abbreviation undo := (undo null_snapshot undefined_snapshot).
Abbreviation redo := (redo null_snapshot undefined_snapshot).

(** [undo] called once per element of [currents], each call on the tracker
    the previous one left; the snapshots returned, in call order. *)
Fixpoint undoMany (currents : list Snapshot) (h : @t Snapshot)
    : list Snapshot * @t Snapshot :=
  match currents with
  | [] => ([], h)
  | current :: rest =>
      let '(s, h1) := undo current h in
      let '(returned, h2) := undoMany rest h1 in
      (s :: returned, h2)
  end.

(** The total number of snapshots a tracker stores. *)
Definition stored (h : @t Snapshot) : nat :=
  (length (_undoHistory h) + length (_redoHistory h))%nat.

Lemma undo_nil (current : Snapshot) (rs : list Snapshot) :
  undo current {| _undoHistory := []; _redoHistory := rs |}
  = (null_snapshot, {| _undoHistory := []; _redoHistory := rs |}).
Proof. reflexivity. Qed.

Lemma redo_nil (current : Snapshot) (us : list Snapshot) :
  redo current {| _undoHistory := us; _redoHistory := [] |}
  = (null_snapshot, {| _undoHistory := us; _redoHistory := [] |}).
Proof. reflexivity. Qed.

(** X1. Undoing [n] times in a row returns the last [n] entries of the undo
    history, most recent first, removes them from the undo history, and
    appends the [n] snapshots passed in, in call order, to the redo
    history. *)
Theorem undoMany_pops (us xs rs currents : list Snapshot) :
  length currents = length xs →
  undoMany currents {| _undoHistory := us ++ xs; _redoHistory := rs |}
  = (reverse xs, {| _undoHistory := us; _redoHistory := rs ++ currents |}).
Proof.
  revert rs currents.
  induction xs as [|x xs IH] using rev_ind; intros rs currents Hlen.
  - destruct currents; [|done]. cbn. by rewrite !app_nil_r.
  - destruct currents as [|current rest].
    { rewrite length_app in Hlen. cbn in Hlen. lia. }
    cbn [undoMany]. rewrite app_assoc, undo_snoc.
    rewrite IH.
    + by rewrite reverse_snoc, <- app_assoc.
    + rewrite length_app in Hlen. cbn in Hlen. lia.
Qed.

(** X2. With a non-empty redo history, [redo current] returning [s] followed
    by [undo s] returns [current] and puts both histories back. *)
Theorem redo_undo_roundtrip (h : @t Snapshot) (current s : Snapshot)
    (h' : @t Snapshot) :
  _redoHistory h ≠ [] →
  redo current h = (s, h') →
  undo s h' = (current, h).
Proof.
  intros Hne Hredo. destruct h as [us rs]. cbn [_redoHistory] in Hne.
  destruct (nonempty_snoc rs Hne) as (rs' & x & ->).
  rewrite redo_snoc in Hredo. injection Hredo as <- <-.
  by rewrite undo_snoc.
Qed.

(** X3. A new action after an undo drops what could be redone: whatever the
    tracker held, after [undo] and then [add] a [redo] returns the null
    sentinel and changes nothing, while the added snapshot can be undone. *)
Theorem add_after_undo_forgets_redo (h : @t Snapshot)
    (current item next : Snapshot) :
  let h1 := add item (undo current h).2 in
  redo next h1 = (null_snapshot, h1)
  ∧ canRndo h1 = false
  ∧ (undo next h1).1 = item.
Proof.
  cbv zeta. destruct (undo current h) as [s [us rs]]. unfold add.
  cbn [snd _undoHistory _redoHistory]. split; [apply redo_nil|].
  split; [reflexivity|]. by rewrite undo_snoc.
Qed.

(** X4. [undo] and [redo] move at most one snapshot between the two histories
    and never change how many the tracker stores; [add] stores one more
    than the undo history held. *)
Theorem stored_conserved (h : @t Snapshot) (current : Snapshot) :
  stored (undo current h).2 = stored h
  ∧ stored (redo current h).2 = stored h
  ∧ stored (add current h) = S (length (_undoHistory h)).
Proof.
  destruct h as [us rs]. unfold stored. split; [|split].
  - destruct us as [|u us _] using rev_ind.
    + by rewrite undo_nil.
    + rewrite undo_snoc. cbn [snd _undoHistory _redoHistory].
      rewrite !length_app. cbn. lia.
  - destruct rs as [|r rs _] using rev_ind.
    + by rewrite redo_nil.
    + rewrite redo_snoc. cbn [snd _undoHistory _redoHistory].
      rewrite !length_app. cbn. lia.
  - unfold add. cbn [_undoHistory _redoHistory]. rewrite length_app. cbn. lia.
Qed.

End history.

Lemma undoMany_pops_witness :
  undoMany 0%nat 1%nat [50; 11]%nat sample
  = ([11; 12]%nat,
     {| _undoHistory := [13]%nat; _redoHistory := [21; 50; 11]%nat |}).
Proof.
  apply (undoMany_pops 0%nat 1%nat [13]%nat [12; 11]%nat [21]%nat
           [50; 11]%nat).
  reflexivity.
Defined.

Lemma redo_undo_roundtrip_witness :
  undo 0%nat 1%nat 21%nat
    {| _undoHistory := [13; 12; 11; 50]%nat; _redoHistory := [] |}
  = (50%nat, sample).
Proof.
  apply (redo_undo_roundtrip 0%nat 1%nat sample 50%nat 21%nat).
  - discriminate.
  - reflexivity.
Defined.

End HistoryTracker.

(** ** JavaScript numbers *)

(** A number is an IEEE 754 double, the primitive [float] of the standard
    library: [+], [-], [*], [/] round to nearest, [<?] and [<=?] are false
    on [nan].  The lemmas below go through the specification [Prim2SF] of
    the primitive operations. *)

(** [ToNumber] of a value that may be missing. *)
Definition toNumber (x : js float) : float :=
  match x with
  | undefined => nan
  | null => 0%float
  | val v => v
  end.

(** The double of an array length. *)
Definition numberOfNat (n : nat) : float :=
  SF2Prim (binary_normalize prec emax (Z.of_nat n) 0 false).

(** Modelled from the ECMAScript specification: [Math.ceil], the smallest
    integral double that is not less than [x]; [nan], the infinities and
    the zeros are returned as they are, and a negative number above [-1]
    gives [-0]. *)
Definition ceil (x : float) : float :=
  match Prim2SF x with
  | S754_finite s m e =>
      if (0 <=? e)%Z then x
      else
        let d := Z.pow 2 (- e) in
        let q := (Z.pos m / d)%Z in
        if s then
          if (q =? 0)%Z then neg_zero
          else SF2Prim (binary_normalize prec emax (- q) 0 false)
        else
          SF2Prim (binary_normalize prec emax
                     (if (Z.pos m mod d =? 0)%Z then q else q + 1) 0 false)
  | _ => x
  end.

(** The natural number a double stands for, when it is a non-negative
    integer: what can be the length of an array. *)
Definition sampleCount (n : float) : option N :=
  match Prim2SF n with
  | S754_zero _ => Some 0%N
  | S754_finite false m e =>
      if (0 <=? e)%Z then Some (Z.to_N (Z.pos m * Z.pow 2 e))
      else if (Z.pos m mod Z.pow 2 (- e) =? 0)%Z
           then Some (Z.to_N (Z.pos m / Z.pow 2 (- e)))
           else None
  | _ => None
  end.

Example ceil_examples :
  ceil 2.5%float = 3%float ∧ ceil (-2.5)%float = (-2)%float
  ∧ ceil (-0.5)%float = neg_zero ∧ ceil 7%float = 7%float
  ∧ ceil nan = nan ∧ ceil infinity = infinity
  ∧ ceil 0x1.c000000000001p+2%float = 8%float
  ∧ sampleCount 8%float = Some 8%N ∧ sampleCount 2.5%float = None
  ∧ sampleCount (-1)%float = None ∧ sampleCount nan = None.
Proof. repeat split; vm_compute; reflexivity. Qed.

Lemma SFcompare_swap (x y : spec_float) :
  SFcompare y x = CompOpp <$> SFcompare x y.
Proof.
  destruct x as [sx|sx| |sx mx ex], y as [sy|sy| |sy my ey]; cbn;
    try reflexivity; try (by destruct sx); try (by destruct sy);
    try (by destruct sx, sy).
  f_equal. rewrite (Z.compare_antisym ex ey).
  destruct sx, sy; try reflexivity.
  - destruct (ex ?= ey)%Z; cbn; try reflexivity.
    f_equal. symmetry. apply (Pos.compare_cont_antisym mx my Eq).
  - destruct (ex ?= ey)%Z; cbn; try reflexivity.
    symmetry. apply (Pos.compare_cont_antisym mx my Eq).
Qed.

(** [a <= b] rules out [b < a]. *)
Lemma leb_ltb_false (a b : float) :
  (a <=? b)%float = true → (b <? a)%float = false.
Proof.
  rewrite FloatAxioms.leb_spec, FloatAxioms.ltb_spec. unfold SFleb, SFltb.
  rewrite (SFcompare_swap (Prim2SF a) (Prim2SF b)).
  by destruct (SFcompare (Prim2SF a) (Prim2SF b)) as [[]|].
Qed.

(** A finite double is a zero or has a mantissa. *)
Lemma is_finite_spec (x : float) :
  is_finite x = true →
  (∃ s, Prim2SF x = S754_zero s) ∨ (∃ s m e, Prim2SF x = S754_finite s m e).
Proof.
  unfold is_finite, is_nan, is_infinity.
  rewrite !FloatAxioms.eqb_spec, FloatAxioms.abs_spec.
  destruct (Prim2SF x) as [s|s| |s m e] eqn:Hx.
  - eauto.
  - by destruct s.
  - done.
  - eauto 6.
Qed.

(** [x - x] is [+0] for a finite [x]. *)
Lemma sub_diag_finite (x : float) :
  is_finite x = true → (x - x)%float = 0%float.
Proof.
  intros Hfin. apply Prim2SF_inj. rewrite FloatAxioms.sub_spec.
  destruct (is_finite_spec x Hfin) as [[s ->]|(s & m & e & ->)].
  - by destruct s.
  - unfold SF64sub, SFsub. by rewrite Z.sub_diag.
Qed.

(** [+0] divided by a positive scale is [+0]. *)
Lemma div_zero_pos (p : float) :
  (0 <? p)%float = true → (0 / p)%float = 0%float.
Proof.
  rewrite FloatAxioms.ltb_spec. intros Hpos. apply Prim2SF_inj. rewrite FloatAxioms.div_spec.
  change (Prim2SF 0) with (S754_zero false) in *.
  by destruct (Prim2SF p) as [s|[]| |[] m e].
Qed.

(** [+0] divided by a negative scale is [-0]. *)
Lemma div_zero_neg (p : float) :
  (p <? 0)%float = true → (0 / p)%float = neg_zero.
Proof.
  rewrite FloatAxioms.ltb_spec. intros Hneg. apply Prim2SF_inj. rewrite FloatAxioms.div_spec.
  change (Prim2SF 0) with (S754_zero false) in *.
  by destruct (Prim2SF p) as [s|[]| |[] m e].
Qed.

(** Subtracting [-0] changes nothing but [-0] itself, which becomes [+0]. *)
Lemma sub_neg_zero (r : float) : r ≠ neg_zero → (r - neg_zero)%float = r.
Proof.
  intros Hr. apply Prim2SF_inj. rewrite FloatAxioms.sub_spec.
  change (Prim2SF neg_zero) with (S754_zero true).
  destruct (Prim2SF r) as [[]|[]| |s m e] eqn:Hsf; try reflexivity.
  destruct Hr. by apply Prim2SF_inj.
Qed.

(** Subtracting [+0] changes nothing. *)
Lemma sub_zero (r : float) : (r - 0)%float = r.
Proof.
  apply Prim2SF_inj. rewrite FloatAxioms.sub_spec.
  change (Prim2SF 0) with (S754_zero false).
  by destruct (Prim2SF r) as [[]|[]| |s m e].
Qed.

(** Modelled from the documentation of d3-array, which is not among the
    sources: [d3.min(array, accessor)] and [d3.max(array, accessor)], here
    on the values the accessor returns.  Both skip the values that are not
    comparable with themselves ([value >= value] fails for [NaN]), take
    the first one that is, replace it by every later value that is smaller
    ([min > value]) or greater ([max < value]), and return [undefined]
    when no value is comparable. *)
Fixpoint d3_min_from (min : float) (values : list float) : float :=
  match values with
  | [] => min
  | value :: rest =>
      d3_min_from (if (value <? min)%float then value else min) rest
  end.

Fixpoint d3_min (values : list float) : js float :=
  match values with
  | [] => undefined
  | value :: rest =>
      if (value <=? value)%float then val (d3_min_from value rest)
      else d3_min rest
  end.

Fixpoint d3_max_from (max : float) (values : list float) : float :=
  match values with
  | [] => max
  | value :: rest =>
      d3_max_from (if (max <? value)%float then value else max) rest
  end.

Fixpoint d3_max (values : list float) : js float :=
  match values with
  | [] => undefined
  | value :: rest =>
      if (value <=? value)%float then val (d3_max_from value rest)
      else d3_max rest
  end.

Example d3_examples :
  d3_min [3; nan; 1; 2]%float = val 1%float
  ∧ d3_max [nan; 3; 5; 4]%float = val 5%float
  ∧ d3_max [nan] = undefined ∧ d3_min [] = undefined.
Proof. repeat split; vm_compute; reflexivity. Qed.

(** ** Datasets and tracks, as the labeling store reads them *)

Module Dataset.

(** Modelled from the spec: [SensorTimeSeries] and [Dataset] are declared
    in [dataStructures/dataset] and [Track] in [dataStructures/alignment];
    none of them is among the sources.  The fields are those
    [makeNewAlignedDataset] reads and writes.  A column of samples (a
    [Float32Array]) is a list of doubles; [timestampStart] and
    [timestampEnd] may be [undefined], since the store writes there what
    [d3.min] and [d3.max] return. *)
Record SensorTimeSeries : Type := {
  name : string;
  kind : string;
  dimensions : list (list float);
  timestampStart : js float;
  timestampEnd : js float;
  sampleRate : float;
  scales : list (list float)
}.

Record Track : Type := {
  referenceStart : float;
  referenceEnd : float;
  duration : float;
  timeSeries : list SensorTimeSeries
}.

(** A [Dataset]: the sensors [addSensor] has collected, in order, and the
    two fields the store assigns. *)
Record Dataset : Type := {
  sensors : list SensorTimeSeries;
  dataset_timestampStart : js float;
  dataset_timestampEnd : js float
}.

End Dataset.

(** ** Labels and the index that stores them *)

(** Modelled from the spec: the declaration of [Label] is in
    [dataStructures/labeling], which is not among the sources; the fields
    are those the spec lists and [updateLabel] assigns. *)
Record Label : Type := {
  timestampStart : float;
  timestampEnd : float;
  className : string;
  state : string;
  suggestionConfidence : float;
  suggestionGeneration : float
}.

Module TimeRangeIndex.

(** Modelled from the spec: [TimeRangeIndex] is not among the sources.  The
    spec gives its contract: a collection of interval-tagged items with
    add / remove / clear / has and iteration, in which a label is unique by
    identity.  The model is a finite map from the identity of an item (the
    address of the object) to its current fields. *)
Definition empty {T} : gmap nat T := ∅.

Definition add {T} (ref : nat) (item : T) (ix : gmap nat T) : gmap nat T :=
  <[ref := item]> ix.

Definition remove {T} (ref : nat) (ix : gmap nat T) : gmap nat T :=
  delete ref ix.

Definition has {T} (ref : nat) (ix : gmap nat T) : bool :=
  bool_decide (is_Some (ix !! ref)).

Definition clear {T} (ix : gmap nat T) : gmap nat T := ∅.

(** The items [forEach] visits, each with its identity. *)
Definition items {T} (ix : gmap nat T) : list (nat * T) := map_to_list ix.

End TimeRangeIndex.

(** ** The labeling store *)

Module LabelingStore.

Definition colorbrewer6 : list string :=
  ["#a6cee3"; "#b2df8a"; "#fb9a99"; "#fdbf6f"; "#cab2d6"; "#ffff99"].

Definition d3category20 : list string :=
  ["#1f77b4"; "#aec7e8"; "#ff7f0e"; "#ffbb78"; "#2ca02c";
   "#98df8a"; "#d62728"; "#ff9896"; "#9467bd"; "#c5b0d5";
   "#8c564b"; "#c49c94"; "#e377c2"; "#f7b6d2"; "#7f7f7f";
   "#c7c7c7"; "#bcbd22"; "#dbdb8d"; "#17becf"; "#9edae5"].

(** *** The colour map as a JavaScript object

    [classColormap] is a plain object indexed by class name, so a lookup
    [classColormap[name]] goes through the prototype chain and an
    assignment [classColormap[name] = v] can hit an inherited setter.  The
    model is the object of the language; the bookkeeping that the
    [@observable] decoration of MobX adds to it is left out. *)

(** The property names of [Object.prototype], as the ECMAScript
    specification (with its Annex B, which the Chromium engine of the
    application implements) lists them.  All but [__proto__] are writable
    data properties holding a built-in function; [__proto__] is an
    accessor whose getter returns the prototype of the object it is read
    from and whose setter replaces it. *)
Definition prototypeKeys : list string :=
  ["constructor"; "hasOwnProperty"; "isPrototypeOf"; "propertyIsEnumerable";
   "toLocaleString"; "toString"; "valueOf"; "__proto__";
   "__defineGetter__"; "__defineSetter__"; "__lookupGetter__";
   "__lookupSetter__"].

(** What a colour slot or a map entry holds besides [null]: a string, or
    the value [Object.prototype] has under the entry's own name (a built-in
    function; for [__proto__] the object [Object.prototype] itself).
    [updateColors] reads such a value under the name of a class (line 143)
    and writes it back under the name of the same class (line 172), and no
    other code moves values between names, so [member] needs no name of its
    own: in slot [i] it is the member named [classes[i]], in the map entry
    [name] the member named [name].  Under a name that [Object.prototype]
    does not have it is [undefined]. *)
Inductive color : Type :=
| str (c : string)
| member.

#[global] Instance color_eq_dec : EqDecision color.
Proof. solve_decision. Defined.

(** The prototype of a colour map: [Object.prototype] for an object made by
    [{}] or by the JSON parser, or none once [__proto__] was set to
    [null]. *)
Inductive Prototype : Type := ObjectPrototype | NullPrototype.

#[global] Instance Prototype_eq_dec : EqDecision Prototype.
Proof. solve_decision. Defined.

(** A colour map: its own properties ([None] for the value [null]) and its
    prototype. *)
Record ColorMap : Type := {
  own : gmap string (option color);
  prototype : Prototype
}.

(** [{}]. *)
Definition emptyObject : ColorMap := {| own := ∅; prototype := ObjectPrototype |}.

(** The object the JSON parser makes of the entries of a project file:
    every entry an own property (also one named [__proto__]). *)
Definition parsed (entries : gmap string (option string)) : ColorMap :=
  {| own := (λ v : option string, str <$> v) <$> entries;
     prototype := ObjectPrototype |}.

(** [map[name]]: the own property if there is one, otherwise what the
    prototype has under that name. *)
Definition getProperty (m : ColorMap) (name : string) : js color :=
  match own m !! name with
  | Some (Some v) => val v
  | Some None => null
  | None =>
      match prototype m with
      | ObjectPrototype =>
          if bool_decide (name ∈ prototypeKeys) then val member else undefined
      | NullPrototype => undefined
      end
  end.

(** Whether a value found under [name] passes [if (...)]: a string other
    than the empty one, a function or an object. *)
Definition truthy (name : string) (v : color) : bool :=
  match v with
  | str c => negb (bool_decide (c = ""))
  | member => bool_decide (name ∈ prototypeKeys)
  end.

(** [map[name] = v].  An own property is overwritten.  Without one, the
    name [__proto__] reaches the setter inherited from [Object.prototype],
    which makes no property: it sets the prototype when [v] is [null] or an
    object (here [Object.prototype] itself, the only object a slot of that
    name can hold) and ignores a string.  Any other name, and [__proto__]
    too once the prototype is gone, becomes an own property. *)
Definition setProperty (name : string) (v : option color) (m : ColorMap)
    : ColorMap :=
  if bool_decide (name = "__proto__")
     && bool_decide (own m !! name = None)
     && bool_decide (prototype m = ObjectPrototype)
  then
    match v with
    | None => {| own := own m; prototype := NullPrototype |}
    | Some _ => m
    end
  else {| own := <[name := v]> (own m); prototype := prototype m |}.

(** *** The store *)

(** A colour slot holds a [color] or [null]; [classColormap] is
    [undefined] until the first [updateColors] (and falsy again if a loaded
    project has none). *)
Record t : Type := Build {
  _labelsIndex : gmap nat Label;
  classes : list string;
  classColors : list (option color);
  classColormap : option ColorMap
}.

(** [this.classColormap[name]] when the map is there and that value is
    truthy (lines 140 and 142). *)
Definition originalColor (m : option ColorMap) (name : string) : option color :=
  match m with
  | Some m =>
      match getProperty m name with
      | val v => if truthy name v then Some v else None
      | _ => None
      end
  | None => None
  end.

(** The first loop of [updateColors]: keep the values the map knows.  The
    slots start as [null] ([classes.map(() => null)]); the result pairs
    the slots with [usedColors].  Without a map the guard
    [if (this.classColormap)] skips the loop, which leaves what the loop
    leaves when it finds no value for any class. *)
Fixpoint keepOriginal (m : option ColorMap)
    (classes : list string) (usedColors : list color)
    : list (option color) * list color :=
  match classes with
  | [] => ([], usedColors)
  | name :: rest =>
      match originalColor m name with
      | Some color =>
          let '(colors, used) := keepOriginal m rest (usedColors ++ [color]) in
          (Some color :: colors, used)
      | None =>
          let '(colors, used) := keepOriginal m rest usedColors in
          (None :: colors, used)
      end
  end.

(** The inner loop over the palette: the first [palette[j]] with
    [usedColors.indexOf(palette[j]) < 0]; [None] when the loop ends
    without a [break].  [indexOf] compares with [===], under which a
    string equals no function and no object. *)
Fixpoint firstUnused (palette : list string) (usedColors : list color)
    : option string :=
  match palette with
  | [] => None
  | p :: rest =>
      if decide (indexOf (str p) usedColors < 0) then Some p
      else firstUnused rest usedColors
  end.

(** The second loop: fill the slots that are still [null]. *)
Fixpoint assignNew (palette : list string) (classes : list string)
    (classColors : list (option color)) (usedColors : list color)
    : list (option color) * list color :=
  match classes, classColors with
  | name :: rest, slot :: slots =>
      match slot with
      | None =>
          if decide (name = "IGNORE") then
            let '(colors, used) :=
              assignNew palette rest slots (usedColors ++ [str "#CCC"]) in
            (Some (str "#CCC") :: colors, used)
          else
            match firstUnused palette usedColors with
            | Some p =>
                let '(colors, used) :=
                  assignNew palette rest slots (usedColors ++ [str p]) in
                (Some (str p) :: colors, used)
            | None =>
                let '(colors, used) :=
                  assignNew palette rest slots usedColors in
                (None :: colors, used)
            end
      | Some _ =>
          let '(colors, used) := assignNew palette rest slots usedColors in
          (slot :: colors, used)
      end
  | _, _ => ([], usedColors)
  end.

(** [let palette = d3category20; if (classes.length < 6) palette = colorbrewer6]. *)
Definition paletteFor (classes : list string) : list string :=
  if decide (Z.of_nat (length classes) < 6) then colorbrewer6 else d3category20.

(** The last loop: [classColormap = {}], then
    [classColormap[classes[i]] = classColors[i]] in index order, so a later
    entry of the same name overwrites an earlier one. *)
Definition rebuildColormap (classes : list string)
    (classColors : list (option color)) : ColorMap :=
  foldl (λ m entry, setProperty entry.1 entry.2 m) emptyObject
        (zip classes classColors).

Definition updateColors (s : t) : t :=
  let '(kept, used) := keepOriginal (classColormap s) (classes s) [] in
  let '(colors, _) := assignNew (paletteFor (classes s)) (classes s) kept used in
  {| _labelsIndex := _labelsIndex s;
     classes := classes s;
     classColors := colors;
     classColormap := Some (rebuildColormap (classes s) colors) |}.

(** [constructor]: classes [IGNORE] and [Positive], no colour map yet. *)
Definition create : t :=
  updateColors {| _labelsIndex := ∅; classes := ["IGNORE"; "Positive"];
                  classColors := []; classColormap := None |}.

(** [projectStore.recordLabelingSnapshot()] at the head of every action
    only writes to the project store; it leaves this store as it is. *)
Definition addClass (name : string) (s : t) : t :=
  if decide (indexOf name (classes s) < 0) then
    updateColors {| _labelsIndex := _labelsIndex s;
                    classes := classes s ++ [name];
                    classColors := classColors s;
                    classColormap := classColormap s |}
  else s.

(** [removeClass], first half ("Remove the labels of that class"): collect
    the labels of the class with [forEach], then [remove] each of them. *)
Definition removeLabelsOf (name : string) (ix : gmap nat Label) : gmap nat Label :=
  let toRemove :=
    filter (λ item, className item.2 = name) (TimeRangeIndex.items ix) in
  if decide (0 < Z.of_nat (length toRemove)) then
    foldl (λ ix item, TimeRangeIndex.remove item.1 ix) ix toRemove
  else ix.

(** [removeClass], with its second half ("Remove the class"). *)
Definition removeClass (name : string) (s : t) : t :=
  let labels := removeLabelsOf name (_labelsIndex s) in
  let index := indexOf name (classes s) in
  if decide (0 ≤ index) then
    updateColors {| _labelsIndex := labels;
                    classes := (splice1 (Z.to_nat index) (classes s)).2;
                    classColors := classColors s;
                    classColormap := classColormap s |}
  else {| _labelsIndex := labels; classes := classes s;
          classColors := classColors s; classColormap := classColormap s |}.

(** [SavedLabelingState]: what a project file holds.  [saved_classes] is
    [None] when the file has no class list, [saved_classColormap] when it
    has no colour map; the labels come with the identities of the objects
    the parser made for them. *)
Record SavedLabelingState : Type := {
  saved_labels : list (nat * Label);
  saved_classes : option (list string);
  saved_classColormap : option ColorMap
}.

(** [loadState]; nothing in the file is validated.  The closing update of
    [labelingUiStore.currentClass] writes to another store. *)
Definition loadState (saved : SavedLabelingState) (s : t) : t :=
  let s1 :=
    match saved_classes saved with
    | Some cs =>
        updateColors {| _labelsIndex := _labelsIndex s; classes := cs;
                        classColors := classColors s;
                        classColormap := saved_classColormap saved |}
    | None => s
    end in
  {| _labelsIndex :=
       foldl (λ ix item, TimeRangeIndex.add item.1 item.2 ix)
             (TimeRangeIndex.clear (_labelsIndex s1)) (saved_labels saved);
     classes := classes s1;
     classColors := classColors s1;
     classColormap := classColormap s1 |}.

(** *** The colour a slot ends with, given the colours already used *)

Definition slotResult (palette : list string) (name : string)
    (slot : option color) (usedColors : list color) : option color :=
  match slot with
  | Some color => Some color
  | None =>
      if decide (name = "IGNORE") then Some (str "#CCC")
      else str <$> firstUnused palette usedColors
  end.

(** [usedColors] after the second loop has handled one slot. *)
Definition usedAfter (slot result : option color) (usedColors : list color)
    : list color :=
  match slot, result with
  | None, Some color => usedColors ++ [color]
  | _, _ => usedColors
  end.

Lemma keepOriginal_spec m (cs : list string) (used : list color) :
  keepOriginal m cs used
  = (originalColor m <$> cs, used ++ omap (originalColor m) cs).
Proof.
  revert used. induction cs as [|name cs IH]; intros used.
  - cbn. by rewrite app_nil_r.
  - cbn [keepOriginal fmap list_fmap omap list_omap].
    destruct (originalColor m name) as [color|]; rewrite IH; [|done].
    by rewrite <- app_assoc.
Qed.

Lemma firstUnused_Some (palette : list string) (used : list color) (p : string) :
  firstUnused palette used = Some p ↔
  ∃ l1 l2, palette = l1 ++ p :: l2
           ∧ (∀ q, q ∈ l1 → str q ∈ used) ∧ (str p ∉ used).
Proof.
  induction palette as [|q palette IH]; cbn [firstUnused].
  - split; [done|]. intros (l1 & l2 & Heq & _). by destruct l1.
  - destruct (decide (indexOf (str q) used < 0)) as [Hfree|Hused].
    + apply indexOf_absent in Hfree. split.
      * intros [= ->]. exists [], palette. split; [done|]. split; [|done].
        intros q' Hin. inversion Hin.
      * intros (l1 & l2 & Heq & Hall & Hp). destruct l1 as [|q' l1].
        -- by injection Heq as -> _.
        -- injection Heq as -> _. exfalso. apply Hfree, Hall. left.
    + assert (str q ∈ used) as Hq by (apply indexOf_found; lia).
      rewrite IH. split.
      * intros (l1 & l2 & -> & Hall & Hp). exists (q :: l1), l2.
        split; [done|]. split; [|done]. intros q' Hin.
        apply elem_of_cons in Hin. destruct Hin as [->|Hin]; auto.
      * intros (l1 & l2 & Heq & Hall & Hp). destruct l1 as [|q' l1].
        -- injection Heq as -> _. done.
        -- injection Heq as -> ->. exists l1, l2. split; [done|].
           split; [|done]. intros q Hin. apply Hall. by right.
Qed.

Lemma firstUnused_None (palette : list string) (used : list color) :
  firstUnused palette used = None ↔ ∀ q, q ∈ palette → str q ∈ used.
Proof.
  induction palette as [|q palette IH]; cbn [firstUnused].
  - split; [|done]. intros _ q Hin. inversion Hin.
  - destruct (decide (indexOf (str q) used < 0)) as [Hfree|Hused].
    + apply indexOf_absent in Hfree. split; [done|].
      intros Hall. exfalso. apply Hfree, Hall. left.
    + assert (str q ∈ used) as Hq by (apply indexOf_found; lia).
      rewrite IH. split.
      * intros Hall q' Hin. apply elem_of_cons in Hin.
        destruct Hin as [->|Hin]; auto.
      * intros Hall q' Hin. apply Hall. by right.
Qed.

Lemma firstUnused_in_palette (palette : list string) (used : list color)
    (p : string) :
  firstUnused palette used = Some p → p ∈ palette ∧ str p ∉ used.
Proof.
  intros (l1 & l2 & -> & _ & Hp)%firstUnused_Some. split; [|done].
  apply elem_of_app. right. left.
Qed.

Lemma assignNew_cons palette name (cs : list string) slot slots used :
  assignNew palette (name :: cs) (slot :: slots) used
  = (slotResult palette name slot used
       :: (assignNew palette cs slots
             (usedAfter slot (slotResult palette name slot used) used)).1,
     (assignNew palette cs slots
        (usedAfter slot (slotResult palette name slot used) used)).2).
Proof.
  cbn [assignNew]. unfold slotResult, usedAfter.
  destruct slot as [color|].
  - by destruct (assignNew palette cs slots used).
  - destruct (decide (name = "IGNORE")).
    + by destruct (assignNew palette cs slots (used ++ [str "#CCC"])).
    + destruct (firstUnused palette used) as [p|]; cbn [fmap option_fmap option_map].
      * by destruct (assignNew palette cs slots (used ++ [str p])).
      * by destruct (assignNew palette cs slots used).
Qed.

Lemma assignNew_length palette (cs : list string) slots used :
  length slots = length cs →
  length (assignNew palette cs slots used).1 = length cs.
Proof.
  revert slots used. induction cs as [|name cs IH]; intros slots used Hlen.
  - by destruct slots.
  - destruct slots as [|slot slots]; [done|].
    rewrite assignNew_cons. cbn [fst length]. f_equal. apply IH.
    cbn [length] in Hlen. lia.
Qed.

(** What the second loop writes at index [i]: the colour determined by the
    slot and by the colours used up to that point, which are the initial
    ones and those the loop itself gave to earlier empty slots. *)
Lemma assignNew_lookup palette (cs : list string) :
  ∀ slots used (i : nat) name slot,
    cs !! i = Some name → slots !! i = Some slot →
    ∃ usedi : list color,
      (∀ p, p ∈ usedi ↔
            p ∈ used ∨ ∃ k : nat, (k < i)%nat ∧ slots !! k = Some None
                        ∧ (assignNew palette cs slots used).1 !! k = Some (Some p))
      ∧ (assignNew palette cs slots used).1 !! i
        = Some (slotResult palette name slot usedi).
Proof.
  induction cs as [|name0 cs IH]; intros slots used i name slot Hcs Hslot;
    [done|].
  destruct slots as [|slot0 slots]; [done|].
  rewrite assignNew_cons. cbn [fst].
  destruct i as [|i].
  - injection Hcs as ->. injection Hslot as ->. exists used. split; [|done].
    intros p. split; [by left|]. intros [Hin|(k & Hk & _)]; [done|lia].
  - cbn [lookup list_lookup] in Hcs, Hslot.
    remember (slotResult palette name0 slot0 used) as r0 eqn:Hr0def.
    clear Hr0def.
    destruct (IH slots (usedAfter slot0 r0 used) i name slot Hcs Hslot)
      as (usedi & Hmem & Hres).
    exists usedi. split; [|exact Hres].
    intros p. rewrite Hmem. clear Hmem Hres. split.
    + intros [Hin|(k & Hk & Hsk & Hrk)].
      * unfold usedAfter in Hin. destruct slot0 as [c0|]; [by left|].
        destruct r0 as [c0|]; [|by left].
        apply elem_of_app in Hin. destruct Hin as [Hin|Hin]; [by left|].
        apply list_elem_of_singleton in Hin. subst p. right.
        exists 0%nat. split; [lia|]. split; done.
      * right. exists (S k). split; [lia|]. split; done.
    + intros [Hin|(k & Hk & Hsk & Hrk)].
      * left. unfold usedAfter. destruct slot0; [done|].
        destruct r0; [|done]. apply elem_of_app. by left.
      * destruct k as [|k].
        -- cbn in Hsk, Hrk. injection Hsk as ->. injection Hrk as Hr0.
           left. unfold usedAfter. rewrite Hr0.
           apply elem_of_app. right. by apply list_elem_of_singleton.
        -- right. exists k. split; [lia|]. split; done.
Qed.

(** *** [updateColors], field by field *)

Lemma updateColors_classes (s : t) : classes (updateColors s) = classes s.
Proof.
  unfold updateColors. rewrite keepOriginal_spec.
  by destruct (assignNew _ _ _ _).
Qed.

Lemma updateColors_labels (s : t) :
  _labelsIndex (updateColors s) = _labelsIndex s.
Proof.
  unfold updateColors. rewrite keepOriginal_spec.
  by destruct (assignNew _ _ _ _).
Qed.

Lemma updateColors_colors (s : t) :
  classColors (updateColors s)
  = (assignNew (paletteFor (classes s)) (classes s)
       (originalColor (classColormap s) <$> classes s)
       (omap (originalColor (classColormap s)) (classes s))).1.
Proof.
  unfold updateColors. rewrite keepOriginal_spec. cbn [app].
  by destruct (assignNew _ _ _ _).
Qed.

Lemma updateColors_colormap (s : t) :
  classColormap (updateColors s)
  = Some (rebuildColormap (classes s) (classColors (updateColors s))).
Proof.
  unfold updateColors. rewrite keepOriginal_spec.
  by destruct (assignNew _ _ _ _).
Qed.

Lemma updateColors_length (s : t) :
  length (classColors (updateColors s)) = length (classes s).
Proof.
  rewrite updateColors_colors. apply assignNew_length.
  by rewrite length_fmap.
Qed.

(** *** The colours in use when [updateColors] reaches index [i]

    A colour counts as used at index [i] when the first loop kept it for
    some class (whatever its position), or when the second loop has given
    it to a class before [i] that had no colour to keep. *)
Definition usedBefore (s : t) (i : nat) (p : string) : Prop :=
  (∃ (k : nat) name, classes s !! k = Some name
                     ∧ originalColor (classColormap s) name = Some (str p))
  ∨ (∃ (k : nat) name, (k < i)%nat ∧ classes s !! k = Some name
                       ∧ originalColor (classColormap s) name = None
                       ∧ classColors (updateColors s) !! k = Some (Some (str p))).


Lemma elem_of_kept m (cs : list string) (v : color) :
  v ∈ omap (originalColor m) cs ↔
  ∃ (k : nat) name, cs !! k = Some name ∧ originalColor m name = Some v.
Proof.
  rewrite list_elem_of_omap. split.
  - intros (name & Hin & Hc). apply list_elem_of_lookup in Hin as [k Hk].
    eauto.
  - intros (k & name & Hk & Hc). exists name. split; [|done].
    apply list_elem_of_lookup. eauto.
Qed.

(** The slot at index [i] of [updateColors], with the colours used so far
    described by [usedBefore]. *)
Lemma updateColors_lookup (s : t) (i : nat) (name : string) :
  classes s !! i = Some name →
  ∃ usedi : list color,
    (∀ p, str p ∈ usedi ↔ usedBefore s i p)
    ∧ classColors (updateColors s) !! i
      = Some (slotResult (paletteFor (classes s)) name
                (originalColor (classColormap s) name) usedi).
Proof.
  intros Hname.
  destruct (assignNew_lookup (paletteFor (classes s)) (classes s)
              (originalColor (classColormap s) <$> classes s)
              (omap (originalColor (classColormap s)) (classes s))
              i name (originalColor (classColormap s) name) Hname)
    as (usedi & Hmem & Hres).
  { by rewrite list_lookup_fmap, Hname. }
  exists usedi. rewrite updateColors_colors. split; [|exact Hres].
  intros p. rewrite Hmem, elem_of_kept. unfold usedBefore.
  rewrite updateColors_colors.
  split.
  - intros [Hkept|(k & Hk & Hslot & Hres')]; [by left|right].
    rewrite list_lookup_fmap in Hslot.
    destruct (classes s !! k) as [namek|] eqn:Hnamek; [|done].
    injection Hslot as Hslot. exists k, namek. done.
  - intros [Hkept|(k & namek & Hlt & Hnamek & Horig & Hres')]; [by left|right].
    exists k. split; [done|]. split; [|done].
    by rewrite list_lookup_fmap, Hnamek, <- Horig.
Qed.

(** *** Reading and writing a colour map *)

Lemma proto_key : "__proto__" ∈ prototypeKeys.
Proof. apply (bool_decide_unpack _). vm_compute. exact I. Qed.

(** The value [updateColors] keeps for a class is a non-empty string the
    map has as an own property, or the inherited (or copied) member of
    [Object.prototype] of that name. *)
Lemma originalColor_truthy m (name : string) (v : color) :
  originalColor m name = Some v → truthy name v = true.
Proof.
  unfold originalColor. destruct m as [m|]; [|done].
  destruct (getProperty m name) as [| |w]; try done.
  destruct (truthy name w) eqn:Hw; [|done]. by intros [= <-].
Qed.

Lemma originalColor_str m (name c : string) :
  originalColor (Some m) name = Some (str c) →
  own m !! name = Some (Some (str c)) ∧ c ≠ "".
Proof.
  intros Horig. pose proof (originalColor_truthy _ _ _ Horig) as Htrue.
  cbn in Htrue. apply negb_true_iff, bool_decide_eq_false in Htrue.
  split; [|done]. revert Horig. unfold originalColor, getProperty.
  destruct (own m !! name) as [[w|]|]; try done.
  - destruct (truthy name w); [|done]. by intros [= ->].
  - destruct (prototype m); [|done].
    destruct (bool_decide _); [|done]. by destruct (truthy name member).
Qed.

Lemma originalColor_member m (name : string) :
  originalColor m name = Some member → name ∈ prototypeKeys.
Proof.
  intros Horig. apply originalColor_truthy in Horig.
  by apply bool_decide_eq_true in Horig.
Qed.

(** A name the object has no own property for: only [Object.prototype] can
    answer, with its member of that name. *)
Lemma originalColor_inherited m (name : string) :
  own m !! name = None →
  originalColor (Some m) name
  = if bool_decide (prototype m = ObjectPrototype ∧ name ∈ prototypeKeys)
    then Some member else None.
Proof.
  intros Hown. unfold originalColor, getProperty. rewrite Hown.
  destruct (prototype m).
  - destruct (decide (name ∈ prototypeKeys)) as [Hin|Hnot].
    + rewrite (bool_decide_eq_true_2 _ Hin). cbn [truthy].
      rewrite (bool_decide_eq_true_2 _ Hin).
      by rewrite bool_decide_eq_true_2.
    + rewrite (bool_decide_eq_false_2 _ Hnot).
      rewrite bool_decide_eq_false_2; [done|]. by intros [_ ?].
  - rewrite bool_decide_eq_false_2; [done|]. by intros [? _].
Qed.

Lemma originalColor_own m (name : string) (v : color) :
  own m !! name = Some (Some v) → truthy name v = true →
  originalColor (Some m) name = Some v.
Proof.
  intros Hown Htrue. unfold originalColor, getProperty.
  by rewrite Hown, Htrue.
Qed.

Lemma originalColor_own_null m (name : string) :
  own m !! name = Some None → originalColor (Some m) name = None.
Proof. intros Hown. unfold originalColor, getProperty. by rewrite Hown. Qed.

Lemma setProperty_own_ne (name n : string) (v : option color) (m : ColorMap) :
  n ≠ name → own (setProperty name v m) !! n = own m !! n.
Proof.
  intros Hne. unfold setProperty.
  destruct (_ && _); [by destruct v|]. cbn. by rewrite lookup_insert_ne.
Qed.

Lemma setProperty_own_eq (name : string) (v : option color) (m : ColorMap) :
  name ≠ "__proto__" → own (setProperty name v m) !! name = Some v.
Proof.
  intros Hne. unfold setProperty.
  rewrite (bool_decide_eq_false_2 _ Hne). cbn. apply lookup_insert_eq.
Qed.

Lemma setProperty_own_Some (name n : string) (v w : option color)
    (m : ColorMap) :
  own (setProperty name v m) !! n = Some w →
  own m !! n = Some w ∨ (n = name ∧ w = v).
Proof.
  unfold setProperty. destruct (_ && _).
  - destruct v; cbn; auto.
  - cbn. destruct (decide (name = n)) as [->|Hne].
    + rewrite lookup_insert_eq. intros [= ->]. by right.
    + rewrite lookup_insert_ne by done. by left.
Qed.

(** An object is [plain] while its prototype is [Object.prototype] and it
    has no own property [__proto__]: the state [{}] starts in and leaves
    only when [__proto__] is set to [null]. *)
Definition plain (m : ColorMap) : Prop :=
  prototype m = ObjectPrototype ∧ own m !! "__proto__" = None.

Lemma setProperty_plain (name : string) (v : option color) (m : ColorMap) :
  plain m → (name = "__proto__" → v ≠ None) → plain (setProperty name v m).
Proof.
  intros [Hproto Hown] Hv. unfold setProperty.
  destruct (decide (name = "__proto__")) as [->|Hne].
  - rewrite !bool_decide_eq_true_2 by done. cbn.
    destruct v; [done|]. by destruct Hv.
  - rewrite (bool_decide_eq_false_2 _ Hne). cbn. split; [done|].
    cbn. by rewrite lookup_insert_ne.
Qed.

(** An own property [__proto__] is only ever made once the prototype is
    gone, and the prototype never comes back. *)
Definition protoOnce (m : ColorMap) : Prop :=
  prototype m = ObjectPrototype → own m !! "__proto__" = None.

Lemma setProperty_protoOnce (name : string) (v : option color) (m : ColorMap) :
  protoOnce m → protoOnce (setProperty name v m).
Proof.
  intros Hm. unfold setProperty, protoOnce.
  destruct (decide (name = "__proto__")) as [->|Hne].
  - destruct (decide (own m !! "__proto__" = None)) as [Hown|Hown].
    + rewrite (bool_decide_eq_true_2 _ Hown).
      destruct (decide (prototype m = ObjectPrototype)) as [Hp|Hp].
      * rewrite (bool_decide_eq_true_2 _ Hp). cbn. by destruct v.
      * rewrite (bool_decide_eq_false_2 _ Hp). cbn. done.
    + rewrite (bool_decide_eq_false_2 _ Hown). cbn.
      intros Hp. by destruct Hown; apply Hm.
  - rewrite (bool_decide_eq_false_2 _ Hne). cbn. intros Hp.
    rewrite lookup_insert_ne by done. by apply Hm.
Qed.

(** *** The rebuilt colour map *)

Lemma rebuild_step_notin (l : list (string * option color))
    (m : ColorMap) (name : string) :
  name ∉ l.*1 →
  own (foldl (λ m entry, setProperty entry.1 entry.2 m) m l) !! name
  = own m !! name.
Proof.
  revert m. induction l as [|[n v] l IH]; intros m Hnot; [done|].
  cbn [foldl]. cbn [fmap list_fmap fst] in Hnot.
  apply not_elem_of_cons in Hnot as [Hne Hnot].
  rewrite IH by done. cbn. by apply setProperty_own_ne.
Qed.

Lemma rebuild_step_Some (l : list (string * option color))
    (m : ColorMap) (name : string) (v : option color) :
  own (foldl (λ m entry, setProperty entry.1 entry.2 m) m l) !! name = Some v →
  own m !! name = Some v ∨ (name, v) ∈ l.
Proof.
  revert m. induction l as [|[n v0] l IH]; intros m Hlook; [by left|].
  cbn [foldl] in Hlook. apply IH in Hlook. destruct Hlook as [Hm|Hin].
  - cbn in Hm. apply setProperty_own_Some in Hm as [Hm|[-> ->]].
    + by left.
    + right. left.
  - right. by right.
Qed.

Lemma rebuild_step_nodup (l : list (string * option color))
    (m : ColorMap) (name : string) (v : option color) :
  NoDup l.*1 → (name, v) ∈ l → name ≠ "__proto__" →
  own (foldl (λ m entry, setProperty entry.1 entry.2 m) m l) !! name = Some v.
Proof.
  revert m. induction l as [|[n v0] l IH]; intros m Hnodup Hin Hne;
    [by inversion Hin|].
  cbn [fmap list_fmap fst] in Hnodup. apply NoDup_cons in Hnodup as [Hn Hnodup].
  cbn [foldl]. apply elem_of_cons in Hin. destruct Hin as [Heq|Hin].
  - injection Heq as -> ->. rewrite rebuild_step_notin by done.
    cbn. by apply setProperty_own_eq.
  - by apply IH.
Qed.

Lemma rebuild_step_listed (l : list (string * option color))
    (m : ColorMap) (name : string) :
  name ∈ l.*1 → name ≠ "__proto__" →
  is_Some (own (foldl (λ m entry, setProperty entry.1 entry.2 m) m l) !! name).
Proof.
  revert m. induction l as [|[n v] l IH]; intros m Hin Hne; [by inversion Hin|].
  cbn [foldl]. destruct (decide (name ∈ l.*1)) as [Hlater|Hlast].
  - by apply IH.
  - rewrite rebuild_step_notin by done. cbn [fmap list_fmap fst] in Hin.
    apply elem_of_cons in Hin. destruct Hin as [->|Hin]; [|done].
    cbn. rewrite setProperty_own_eq by done. eauto.
Qed.

Lemma rebuild_step_plain (l : list (string * option color)) (m : ColorMap) :
  plain m → ("__proto__", None) ∉ l →
  plain (foldl (λ m entry, setProperty entry.1 entry.2 m) m l).
Proof.
  revert m. induction l as [|[n v] l IH]; intros m Hm Hnot; [done|].
  cbn [foldl]. apply not_elem_of_cons in Hnot as [Hne Hnot].
  apply IH; [|done]. cbn. apply setProperty_plain; [done|].
  intros -> ->. done.
Qed.

Lemma rebuild_step_protoOnce (l : list (string * option color)) (m : ColorMap) :
  protoOnce m →
  protoOnce (foldl (λ m entry, setProperty entry.1 entry.2 m) m l).
Proof.
  revert m. induction l as [|[n v] l IH]; intros m Hm; [done|].
  cbn [foldl]. apply IH. cbn. by apply setProperty_protoOnce.
Qed.

(** Once the prototype is gone, every later write makes an own property. *)
Lemma rebuild_step_null (l : list (string * option color)) (m : ColorMap) :
  prototype m = NullPrototype →
  prototype (foldl (λ m entry, setProperty entry.1 entry.2 m) m l)
  = NullPrototype.
Proof.
  revert m. induction l as [|[n v] l IH]; intros m Hm; [done|].
  cbn [foldl]. apply IH. cbn. unfold setProperty. rewrite Hm.
  rewrite (bool_decide_eq_false_2 (NullPrototype = ObjectPrototype)) by done.
  by rewrite andb_false_r.
Qed.

(** An own property [__proto__] of the result of writes to a plain object:
    a [null] was written under that name, and the value was written under
    that name after it. *)
Lemma rebuild_step_own_proto (l : list (string * option color)) (m : ColorMap)
    (v : option color) :
  plain m →
  own (foldl (λ m entry, setProperty entry.1 entry.2 m) m l) !! "__proto__"
  = Some v →
  ∃ i j : nat, (i < j)%nat ∧ l !! i = Some ("__proto__", None)
               ∧ l !! j = Some ("__proto__", v).
Proof.
  revert m. induction l as [|[n w] l IH]; intros m Hm Hown.
  { destruct Hm as [_ Hm]. cbn in Hown. by rewrite Hm in Hown. }
  cbn [foldl] in Hown. cbn [fst snd] in Hown.
  destruct (decide (n = "__proto__" ∧ w = None)) as [[-> ->]|Hother].
  - apply rebuild_step_Some in Hown as [Hown|Hin].
    + exfalso. revert Hown. unfold setProperty. destruct Hm as [Hp Ho].
      rewrite !bool_decide_eq_true_2 by done. cbn. by rewrite Ho.
    + apply list_elem_of_lookup in Hin as [j Hj].
      exists 0%nat, (S j). split; [lia|]. done.
  - destruct (IH (setProperty n w m)) as (i & j & Hlt & Hi & Hj).
    + apply setProperty_plain; [done|]. intros -> ->. by apply Hother.
    + done.
    + exists (S i), (S j). split; [lia|]. done.
Qed.

Lemma elem_of_zip_lookup (cs : list string) (cols : list (option color))
    (name : string) (v : option color) :
  (name, v) ∈ zip cs cols ↔
  ∃ i : nat, cs !! i = Some name ∧ cols !! i = Some v.
Proof.
  rewrite list_elem_of_lookup. split.
  - intros (i & Hi). apply lookup_zip_with_Some in Hi
      as (n & w & Heq & Hn & Hw). injection Heq as -> ->. eauto.
  - intros (i & Hn & Hw). exists i. apply lookup_zip_with_Some. eauto.
Qed.

Lemma emptyObject_plain : plain emptyObject.
Proof. done. Qed.

(** Every own property of the rebuilt map comes from a slot of that class. *)
Lemma rebuildColormap_Some (cs : list string) (cols : list (option color))
    (name : string) (v : option color) :
  own (rebuildColormap cs cols) !! name = Some v →
  ∃ i : nat, cs !! i = Some name ∧ cols !! i = Some v.
Proof.
  unfold rebuildColormap. intros Hlook. apply rebuild_step_Some in Hlook.
  destruct Hlook as [Hempty|Hin];
    [cbn in Hempty; by rewrite lookup_empty in Hempty|].
  by apply elem_of_zip_lookup.
Qed.

(** Every listed class other than [__proto__] has an own property in the
    rebuilt map. *)
Lemma rebuildColormap_listed (cs : list string) (cols : list (option color))
    (name : string) :
  length cols = length cs → name ∈ cs → name ≠ "__proto__" →
  is_Some (own (rebuildColormap cs cols) !! name).
Proof.
  intros Hlen Hin Hne. unfold rebuildColormap. apply rebuild_step_listed; [|done].
  rewrite fst_zip by lia. done.
Qed.

(** When no class is listed twice, the map holds for each class other than
    [__proto__] the value of its slot. *)
Lemma rebuildColormap_nodup (cs : list string) (cols : list (option color))
    (i : nat) (name : string) (v : option color) :
  NoDup cs → length cols = length cs →
  cs !! i = Some name → cols !! i = Some v → name ≠ "__proto__" →
  own (rebuildColormap cs cols) !! name = Some v.
Proof.
  intros Hnodup Hlen Hn Hv Hne. unfold rebuildColormap.
  apply rebuild_step_nodup; [| |done].
  - rewrite fst_zip by lia. done.
  - apply elem_of_zip_lookup. eauto.
Qed.

Lemma rebuildColormap_unlisted (cs : list string) (cols : list (option color))
    (name : string) :
  name ∉ cs → own (rebuildColormap cs cols) !! name = None.
Proof.
  intros Hnot. unfold rebuildColormap. rewrite rebuild_step_notin; [done|].
  intros Hin. apply Hnot. apply list_elem_of_fmap in Hin as ([n v] & -> & Hin).
  apply elem_of_zip_lookup in Hin as (i & Hi & _).
  apply list_elem_of_lookup. eauto.
Qed.

(** The rebuilt map stays plain unless a class [__proto__] ends with
    [null]. *)
Lemma rebuildColormap_plain (cs : list string) (cols : list (option color)) :
  (∀ i : nat, cs !! i = Some "__proto__" → cols !! i ≠ Some None) →
  plain (rebuildColormap cs cols).
Proof.
  intros Hproto. apply rebuild_step_plain; [done|].
  intros Hin. apply elem_of_zip_lookup in Hin as (i & Hi & Hnull).
  by apply (Hproto i).
Qed.

Lemma rebuildColormap_protoOnce (cs : list string) (cols : list (option color)) :
  protoOnce (rebuildColormap cs cols).
Proof. apply rebuild_step_protoOnce. intros _. done. Qed.

(** *** Values that [updateColors] writes are truthy *)

Lemma palette_nonempty (cs : list string) (p : string) :
  p ∈ paletteFor cs → p ≠ "" ∧ p ≠ "#CCC".
Proof.
  unfold paletteFor. intros Hin.
  assert (Forall (λ q, q ≠ "" ∧ q ≠ "#CCC") colorbrewer6) as H6
    by (repeat constructor; discriminate).
  assert (Forall (λ q, q ≠ "" ∧ q ≠ "#CCC") d3category20) as H20
    by (repeat constructor; discriminate).
  destruct (decide _).
  - by apply (proj1 (Forall_forall _ _) H6).
  - by apply (proj1 (Forall_forall _ _) H20).
Qed.

Lemma slotResult_truthy (cs : list string) (name : string) m
    (used : list color) (v : color) :
  slotResult (paletteFor cs) name (originalColor m name) used = Some v →
  truthy name v = true.
Proof.
  unfold slotResult.
  destruct (originalColor m name) as [c|] eqn:Horig.
  - intros [= <-]. by eapply originalColor_truthy.
  - destruct (decide (name = "IGNORE")).
    + by intros [= <-].
    + destruct (firstUnused _ _) as [p|] eqn:Hfirst; [|done].
      intros [= <-]. apply firstUnused_in_palette in Hfirst as [Hin _].
      apply palette_nonempty in Hin as [Hne _]. cbn.
      by rewrite bool_decide_eq_false_2.
Qed.

Lemma updateColors_truthy (s : t) (i : nat) (name : string) (v : color) :
  classes s !! i = Some name →
  classColors (updateColors s) !! i = Some (Some v) → truthy name v = true.
Proof.
  intros Hname Hres.
  destruct (updateColors_lookup s i name Hname) as (usedi & _ & Hslot).
  rewrite Hslot in Hres. injection Hres as Hres.
  by eapply slotResult_truthy.
Qed.

Lemma updateColors_nonempty (s : t) (i : nat) (color : string) :
  classColors (updateColors s) !! i = Some (Some (str color)) → color ≠ "".
Proof.
  intros Hres.
  destruct (classes s !! i) as [name|] eqn:Hname.
  - apply (updateColors_truthy s i name) in Hres; [|done]. cbn in Hres.
    by apply negb_true_iff, bool_decide_eq_false in Hres.
  - apply lookup_ge_None in Hname. apply lookup_lt_Some in Hres.
    rewrite updateColors_length in Hres. lia.
Qed.

(** A slot holds a member of [Object.prototype] only for a class that is
    named like one. *)
Lemma updateColors_member (s : t) (i : nat) (name : string) :
  classes s !! i = Some name →
  classColors (updateColors s) !! i = Some (Some member) →
  name ∈ prototypeKeys ∧ originalColor (classColormap s) name = Some member.
Proof.
  intros Hname Hres.
  pose proof (updateColors_truthy s i name member Hname Hres) as Htrue.
  apply bool_decide_eq_true in Htrue. split; [done|].
  destruct (updateColors_lookup s i name Hname) as (usedi & _ & Hslot).
  rewrite Hslot in Hres. injection Hres as Hres. unfold slotResult in Hres.
  destruct (originalColor (classColormap s) name) as [c|]; [done|].
  destruct (decide (name = "IGNORE")); [done|].
  by destruct (firstUnused _ _).
Qed.

(** *** Running [updateColors] again *)

Lemma store_eq (s s' : t) :
  _labelsIndex s = _labelsIndex s' → classes s = classes s' →
  classColors s = classColors s' → classColormap s = classColormap s' →
  s = s'.
Proof. destruct s, s'. cbn. by intros -> -> -> ->. Qed.

(** The second loop changes nothing when every empty slot belongs to a
    class other than [IGNORE] and the palette has no free colour. *)
Lemma assignNew_fixed palette (cs : list string) :
  ∀ slots used,
    length slots = length cs →
    (∀ (i : nat) name, cs !! i = Some name → slots !! i = Some None →
                       name ≠ "IGNORE" ∧ firstUnused palette used = None) →
    assignNew palette cs slots used = (slots, used).
Proof.
  induction cs as [|name0 cs IH]; intros slots used Hlen Hempty.
  - by destruct slots.
  - destruct slots as [|slot0 slots]; [done|].
    rewrite assignNew_cons.
    assert (slotResult palette name0 slot0 used = slot0) as Hr0.
    { unfold slotResult. destruct slot0 as [c|]; [done|].
      destruct (Hempty 0%nat name0 eq_refl eq_refl) as [Hne ->].
      by destruct (decide (name0 = "IGNORE")). }
    rewrite Hr0.
    assert (usedAfter slot0 slot0 used = used) as -> by by destruct slot0.
    rewrite IH; [done|cbn [length] in Hlen; lia|].
    intros i name Hn Hs. by apply (Hempty (S i)).
Qed.

(** After [updateColors] on a list without duplicates, the map gives back
    the value of the slot of every class but [__proto__]. *)
Lemma updateColors_readback (s : t) (i : nat) (name : string) :
  NoDup (classes s) → classes s !! i = Some name → name ≠ "__proto__" →
  classColors (updateColors s) !! i
  = Some (originalColor (classColormap (updateColors s)) name).
Proof.
  intros Hnodup Hname Hne.
  destruct (classColors (updateColors s) !! i) as [v|] eqn:Hv.
  - rewrite updateColors_colormap.
    pose proof (rebuildColormap_nodup _ _ i name v Hnodup
                  (updateColors_length s) Hname Hv Hne) as Hown.
    destruct v as [color|].
    + by rewrite (originalColor_own _ _ _ Hown
                    (updateColors_truthy s i name color Hname Hv)).
    + by rewrite (originalColor_own_null _ _ Hown).
  - apply lookup_ge_None in Hv. apply lookup_lt_Some in Hname.
    rewrite updateColors_length in Hv. lia.
Qed.

(** When a class is listed twice and the first entry ends with [null], so
    does the second: it has nothing to keep either, and the palette, used
    up at the first, is still used up at the second. *)
Lemma updateColors_null_later (s : t) (i j : nat) (name : string) :
  (i < j)%nat → classes s !! i = Some name → classes s !! j = Some name →
  classColors (updateColors s) !! i = Some None →
  classColors (updateColors s) !! j = Some None.
Proof.
  intros Hlt Hi Hj Hnull.
  destruct (updateColors_lookup s i name Hi) as (usedi & Hmemi & Hresi).
  destruct (updateColors_lookup s j name Hj) as (usedj & Hmemj & Hresj).
  rewrite Hresi in Hnull. injection Hnull as Hnull. rewrite Hresj. f_equal.
  unfold slotResult in *.
  destruct (originalColor (classColormap s) name); [done|].
  destruct (decide (name = "IGNORE")); [done|].
  destruct (firstUnused _ usedi) as [p|] eqn:Hfirst; [done|].
  assert (firstUnused (paletteFor (classes s)) usedj = None) as ->; [|done].
  apply firstUnused_None. intros q Hq.
  apply (proj1 (firstUnused_None _ _) Hfirst), Hmemi in Hq. apply Hmemj.
  destruct Hq as [Hq|(k & namek & Hk & Hq)]; [by left|right].
  exists k, namek. split; [lia|done].
Qed.

(** The rebuilt map of [updateColors] never has a truthy own property
    [__proto__]. *)
Lemma updateColors_own_proto (s : t) (m : ColorMap) (v : color) :
  classColormap (updateColors s) = Some m →
  own m !! "__proto__" = Some (Some v) → False.
Proof.
  rewrite updateColors_colormap. intros [= <-] Hown.
  apply rebuild_step_own_proto in Hown as (i & j & Hlt & Hi & Hj); [|done].
  apply lookup_zip_with_Some in Hi as (n1 & w1 & Heq1 & Hn1 & Hw1).
  apply lookup_zip_with_Some in Hj as (n2 & w2 & Heq2 & Hn2 & Hw2).
  injection Heq1 as <- <-. injection Heq2 as <- <-.
  by rewrite (updateColors_null_later s i j "__proto__" Hlt Hn1 Hn2 Hw1) in Hw2.
Qed.

(** A value the map of [updateColors] has for a name is the value of a
    slot of that name, or inherited. *)
Lemma colormap_cases (s : t) (name : string) (v : color) :
  originalColor (classColormap (updateColors s)) name = Some v →
  (∃ i : nat, classes s !! i = Some name
              ∧ classColors (updateColors s) !! i = Some (Some v)
              ∧ own (rebuildColormap (classes s) (classColors (updateColors s)))
                  !! name = Some (Some v))
  ∨ (v = member ∧ name ∈ prototypeKeys
     ∧ own (rebuildColormap (classes s) (classColors (updateColors s)))
         !! name = None
     ∧ prototype (rebuildColormap (classes s) (classColors (updateColors s)))
       = ObjectPrototype).
Proof.
  rewrite updateColors_colormap.
  set (m := rebuildColormap _ _). intros Horig.
  destruct (own m !! name) as [w|] eqn:Hown.
  - left. destruct w as [w|]; [|by rewrite (originalColor_own_null _ _ Hown) in Horig].
    assert (w = v) as ->.
    { revert Horig. unfold originalColor, getProperty. rewrite Hown.
      destruct (truthy name w); [|done]. by intros [= ->]. }
    destruct (rebuildColormap_Some _ _ _ _ Hown) as (i & Hi & Hslot). eauto.
  - right. rewrite (originalColor_inherited _ _ Hown) in Horig.
    destruct (decide (prototype m = ObjectPrototype ∧ name ∈ prototypeKeys))
      as [[Hp Hin]|Hnot].
    + rewrite bool_decide_eq_true_2 in Horig by done. by injection Horig as <-.
    + by rewrite bool_decide_eq_false_2 in Horig.
Qed.

(** A class that has a value in the map keeps it through a further
    [updateColors], duplicates or not. *)
Lemma updateColors_keeps_map (s : t) (name : string) (v : color) :
  originalColor (classColormap (updateColors s)) name = Some v →
  originalColor (classColormap (updateColors (updateColors s))) name = Some v.
Proof.
  intros Horig. pose proof (originalColor_truthy _ _ _ Horig) as Htrue.
  set (s1 := updateColors s) in *.
  assert (∀ i : nat, classes s1 !! i = Some name →
                     classColors (updateColors s1) !! i = Some (Some v))
    as Hslots.
  { intros i Hi.
    destruct (updateColors_lookup s1 i name Hi) as (usedi & _ & ->).
    unfold slotResult. by rewrite Horig. }
  rewrite (updateColors_colormap s1).
  set (m2 := rebuildColormap (classes s1) (classColors (updateColors s1))).
  destruct (decide (name = "__proto__")) as [->|Hne].
  - destruct (colormap_cases s "__proto__" v Horig)
      as [(i & _ & _ & Hown)|(-> & Hin & Hown & Hproto)].
    + exfalso. eapply (updateColors_own_proto s); [|exact Hown].
      apply updateColors_colormap.
    + assert (plain m2) as [Hp2 Ho2].
      { apply rebuildColormap_plain. intros i Hi. by rewrite (Hslots i Hi). }
      rewrite (originalColor_inherited _ _ Ho2).
      by rewrite bool_decide_eq_true_2.
  - destruct (colormap_cases s name v Horig)
      as [(i & Hi & _ & _)|(-> & Hin & Hown & Hproto)].
    + assert (name ∈ classes s1) as Hlisted.
      { subst s1. rewrite updateColors_classes. apply list_elem_of_lookup. eauto. }
      destruct (rebuildColormap_listed (classes s1)
                  (classColors (updateColors s1)) name
                  (updateColors_length s1) Hlisted Hne) as [w Hw].
      fold m2 in Hw.
      destruct (rebuildColormap_Some _ _ _ _ Hw) as (k & Hk & Hslot).
      rewrite (Hslots k Hk) in Hslot. injection Hslot as <-.
      by apply originalColor_own.
    + assert (name ∉ classes s1) as Hunlisted.
      { subst s1. rewrite updateColors_classes. intros Hlisted.
        destruct (rebuildColormap_listed (classes s)
                    (classColors (updateColors s)) name
                    (updateColors_length s) Hlisted Hne) as [w Hw].
        by rewrite Hown in Hw. }
      assert (own m2 !! name = None) as Ho2
        by by apply rebuildColormap_unlisted.
      assert (plain m2) as [Hp2 _].
      { apply rebuildColormap_plain. intros i Hi.
        assert (originalColor (classColormap s1) "__proto__" = Some member)
          as Hkept.
        { subst s1. rewrite updateColors_colormap.
          rewrite originalColor_inherited.
          - rewrite bool_decide_eq_true_2; [done|].
            split; [done|apply proto_key].
          - by apply rebuildColormap_protoOnce. }
        destruct (updateColors_lookup s1 i "__proto__" Hi) as (usedi & _ & ->).
        unfold slotResult. by rewrite Hkept. }
      rewrite (originalColor_inherited _ _ Ho2).
      by rewrite bool_decide_eq_true_2.
Qed.

Lemma updateColors_idempotent (s : t) :
  NoDup (classes s) → "__proto__" ∉ classes s →
  updateColors (updateColors s) = updateColors s.
Proof.
  intros Hnodup Hproto.
  assert (∀ (i : nat) name, classes s !! i = Some name → name ≠ "__proto__")
    as Hnames.
  { intros i name Hi ->. apply Hproto. apply list_elem_of_lookup. eauto. }
  assert (originalColor (classColormap (updateColors s)) <$> classes s
          = classColors (updateColors s)) as Hslots.
  { apply list_eq. intros i. rewrite list_lookup_fmap.
    destruct (classes s !! i) as [name|] eqn:Hname.
    - rewrite (updateColors_readback s i name); eauto.
    - cbn. symmetry. apply lookup_ge_None. apply lookup_ge_None in Hname.
      by rewrite updateColors_length. }
  assert (classColors (updateColors (updateColors s))
          = classColors (updateColors s)) as Hcolors.
  { rewrite (updateColors_colors (updateColors s)).
    rewrite updateColors_classes, Hslots.
    rewrite assignNew_fixed; [done|apply updateColors_length|].
    intros i name Hname Hnull.
    destruct (updateColors_lookup s i name Hname) as (usedi & Hmem & Hres).
    rewrite Hres in Hnull. injection Hnull as Hnull.
    unfold slotResult in Hnull.
    destruct (originalColor (classColormap s) name); [done|].
    destruct (decide (name = "IGNORE")); [done|]. split; [done|].
    destruct (firstUnused _ usedi) as [p|] eqn:Hfirst; [done|].
    apply firstUnused_None. intros q Hq.
    apply (proj1 (firstUnused_None _ _) Hfirst), Hmem in Hq.
    apply elem_of_kept.
    assert (∃ k : nat, classColors (updateColors s) !! k = Some (Some (str q)))
      as [k Hk].
    { destruct Hq as [(k & namek & Hnamek & Horig)
                     |(k & namek & _ & _ & _ & Hk)]; [|eauto].
      exists k.
      destruct (updateColors_lookup s k namek Hnamek) as (usedk & _ & Hresk).
      rewrite Hresk. unfold slotResult. by rewrite Horig. }
    destruct (classes s !! k) as [namek|] eqn:Hnamek.
    - exists k, namek. split; [done|].
      rewrite (updateColors_readback s k namek Hnodup Hnamek) in Hk by eauto.
      by injection Hk.
    - apply lookup_ge_None in Hnamek. apply lookup_lt_Some in Hk.
      rewrite updateColors_length in Hk. lia. }
  apply store_eq.
  - by rewrite !updateColors_labels.
  - by rewrite !updateColors_classes.
  - exact Hcolors.
  - rewrite (updateColors_colormap (updateColors s)), Hcolors.
    by rewrite updateColors_classes, <- updateColors_colormap.
Qed.

(** A class other than [__proto__] that has a value in the map keeps it
    through [updateColors], duplicates or not. *)
Lemma updateColors_keeps (s : t) (name : string) (v : color) :
  originalColor (classColormap s) name = Some v →
  name ∈ classes s → name ≠ "__proto__" →
  originalColor (classColormap (updateColors s)) name = Some v.
Proof.
  intros Horig Hin Hne. rewrite updateColors_colormap.
  destruct (rebuildColormap_listed (classes s) (classColors (updateColors s))
              name (updateColors_length s) Hin Hne) as [w Hw].
  destruct (rebuildColormap_Some _ _ _ _ Hw) as (i & Hname & Hslot).
  destruct (updateColors_lookup s i name Hname) as (usedi & _ & Hres).
  rewrite Hres, Horig in Hslot. cbn [slotResult] in Hslot.
  injection Hslot as <-. apply originalColor_own; [done|].
  by eapply originalColor_truthy.
Qed.

(** *** Removing and adding classes *)

Lemma removeClass_present (name : string) (s : t) :
  name ∈ classes s →
  ∃ l1 l2, classes s = l1 ++ name :: l2 ∧ (name ∉ l1)
    ∧ removeClass name s
      = updateColors {| _labelsIndex := removeLabelsOf name (_labelsIndex s);
                        classes := l1 ++ l2;
                        classColors := classColors s;
                        classColormap := classColormap s |}.
Proof.
  intros Hin. apply indexOf_found in Hin.
  destruct (indexOf_split name (classes s) Hin) as (l1 & l2 & Hcs & Hnot & Hidx).
  exists l1, l2. split; [done|]. split; [done|].
  unfold removeClass. destruct (decide _); [|done].
  by rewrite Hidx, Hcs, splice1_middle.
Qed.

Lemma removeClass_absent (name : string) (s : t) :
  name ∉ classes s →
  removeClass name s
  = {| _labelsIndex := removeLabelsOf name (_labelsIndex s);
       classes := classes s; classColors := classColors s;
       classColormap := classColormap s |}.
Proof.
  intros Hnot. apply indexOf_absent in Hnot.
  unfold removeClass. destruct (decide _); [lia|done].
Qed.

Lemma addClass_new (name : string) (s : t) :
  name ∉ classes s →
  addClass name s
  = updateColors {| _labelsIndex := _labelsIndex s;
                    classes := classes s ++ [name];
                    classColors := classColors s;
                    classColormap := classColormap s |}.
Proof.
  intros Hnot. apply indexOf_absent in Hnot.
  unfold addClass. by destruct (decide _).
Qed.

(** The store's own operations keep the class list free of duplicates:
    [addClass] refuses a name that is listed, [removeClass] only removes. *)
Lemma addClass_NoDup (name : string) (s : t) :
  NoDup (classes s) → NoDup (classes (addClass name s)).
Proof.
  intros Hnodup. destruct (decide (name ∈ classes s)) as [Hin|Hnot].
  - unfold addClass. apply indexOf_found in Hin.
    destruct (decide _); [lia|done].
  - rewrite addClass_new, updateColors_classes by done. cbn [classes].
    apply NoDup_app. split; [done|]. split.
    + intros x Hx Hx'. apply list_elem_of_singleton in Hx'. by subst x.
    + apply NoDup_singleton.
Qed.

Lemma removeClass_NoDup (name : string) (s : t) :
  NoDup (classes s) → NoDup (classes (removeClass name s)).
Proof.
  intros Hnodup. destruct (decide (name ∈ classes s)) as [Hin|Hnot].
  - destruct (removeClass_present name s Hin) as (l1 & l2 & Hcs & _ & ->).
    rewrite updateColors_classes. cbn [classes]. rewrite Hcs in Hnodup.
    apply NoDup_app in Hnodup as (H1 & Hdisj & H2).
    apply NoDup_cons in H2 as [_ H2].
    apply NoDup_app. split; [done|]. split; [|done].
    intros x Hx Hx'. apply (Hdisj x Hx). by right.
  - by rewrite removeClass_absent.
Qed.

Lemma create_NoDup : NoDup (classes create).
Proof. apply (bool_decide_unpack _). vm_compute. exact I. Qed.

(** A class that is not listed has no own property in the rebuilt map:
    a lookup finds nothing, or the member of [Object.prototype] of that
    name. *)
Lemma rebuildColormap_forgets (cs : list string) (cols : list (option color))
    (name : string) :
  name ∉ cs →
  originalColor (Some (rebuildColormap cs cols)) name = None
  ∨ (originalColor (Some (rebuildColormap cs cols)) name = Some member
     ∧ name ∈ prototypeKeys).
Proof.
  intros Hnot.
  rewrite (originalColor_inherited _ _ (rebuildColormap_unlisted _ cols _ Hnot)).
  destruct (decide (prototype (rebuildColormap cs cols) = ObjectPrototype
                    ∧ name ∈ prototypeKeys)) as [Hyes|Hno].
  - right. rewrite bool_decide_eq_true_2 by done. split; [done|apply Hyes].
  - left. by rewrite bool_decide_eq_false_2.
Qed.

(** The colour given to a class appended to a recoloured store differs from
    the colour of every class listed before it; for the class [IGNORE],
    whose colour is fixed, as long as none of them already has ["#CCC"]. *)
Lemma appended_color_fresh (s0 : t) (added p : string) (k : nat) :
  let s := updateColors s0 in
  let s' := addClass added s in
  added ∉ classes s →
  (added ≠ "IGNORE"
   ∨ ∀ j : nat, classColors s !! j ≠ Some (Some (str "#CCC"))) →
  classColors s' !! length (classes s) = Some (Some (str p)) →
  (k < length (classes s))%nat →
  classColors s' !! k ≠ Some (Some (str p)).
Proof.
  intros s s' Hnew Hgrey Hlast Hk Hsame. subst s'.
  assert (classColormap s
          = Some (rebuildColormap (classes s) (classColors s))) as Hmap.
  { subst s. by rewrite updateColors_colormap, updateColors_classes. }
  clearbody s.
  rewrite addClass_new in Hlast, Hsame by done.
  set (sa := {| _labelsIndex := _labelsIndex s;
                classes := classes s ++ [added];
                classColors := classColors s;
                classColormap := classColormap s |}) in *.
  assert (classes sa !! length (classes s) = Some added) as Hadded.
  { cbn. rewrite lookup_app_r by lia. by rewrite Nat.sub_diag. }
  destruct (lookup_lt_is_Some_2 (classes s) k Hk) as [namek Hnamek].
  assert (classes sa !! k = Some namek) as Hnamek'.
  { cbn. by rewrite lookup_app_l. }
  assert (namek ≠ added) as Hne.
  { intros ->. apply Hnew. apply list_elem_of_lookup. eauto. }
  destruct (updateColors_lookup sa _ added Hadded) as (usedn & Hmemn & Hresn).
  destruct (updateColors_lookup sa k namek Hnamek') as (usedk & Hmemk & Hresk).
  rewrite Hresn in Hlast. rewrite Hresk in Hsame.
  apply (inj Some) in Hlast. apply (inj Some) in Hsame.
  assert (originalColor (classColormap sa) added = None) as Hforgot.
  { unfold sa in *. cbn [classColormap] in *. rewrite Hmap in *.
    destruct (rebuildColormap_forgets (classes s) (classColors s) added Hnew)
      as [Hnone|[Hmember _]]; [done|].
    rewrite Hmember in Hlast. cbn [slotResult] in Hlast. done. }
  rewrite Hforgot in Hlast. unfold slotResult in Hlast, Hsame.
  destruct (decide (added = "IGNORE")) as [Hignore|Hother].
  - injection Hlast as <-. destruct Hgrey as [Hgrey|Hgrey]; [done|].
    destruct (originalColor (classColormap sa) namek) as [c|] eqn:Horig.
    + injection Hsame as ->. unfold sa in Horig. cbn [classColormap] in Horig.
      rewrite Hmap in Horig. apply originalColor_str in Horig as [Hown _].
      apply rebuildColormap_Some in Hown as (j & _ & Hj).
      by apply (Hgrey j).
    + destruct (decide (namek = "IGNORE")) as [->|_]; [by subst added|].
      destruct (firstUnused _ usedk) as [q|] eqn:Hfirst; [|done].
      injection Hsame as ->.
      apply firstUnused_in_palette in Hfirst as [Hin _].
      by apply palette_nonempty in Hin as [_ Hin].
  - destruct (firstUnused _ usedn) as [q|] eqn:Hfirst; [|done].
    injection Hlast as ->.
    apply firstUnused_in_palette in Hfirst as [_ Hfree].
    apply Hfree, Hmemn.
    destruct (originalColor (classColormap sa) namek) as [c|] eqn:Horig.
    + injection Hsame as ->. left. eauto.
    + right. exists k, namek. split; [done|]. split; [done|]. split; [done|].
      rewrite Hresk. unfold slotResult.
      destruct (decide (namek = "IGNORE")); by f_equal.
Qed.

(** *** Concrete stores *)

(** The store before the constructor's [updateColors]. *)
Definition fresh : t :=
  {| _labelsIndex := ∅; classes := ["IGNORE"; "Positive"];
     classColors := []; classColormap := None |}.






(** Three project files: one lists a class twice, one colours a class
    other than [IGNORE] with the grey ["#CCC"], one has a class named
    [__proto__]. *)
Definition projectTwice : SavedLabelingState :=
  {| saved_labels := []; saved_classes := Some ["Walk"; "Walk"];
     saved_classColormap := None |}.

Definition projectGrey : SavedLabelingState :=
  {| saved_labels := []; saved_classes := Some ["Walk"; "Run"];
     saved_classColormap :=
       Some (parsed (<["Walk" := Some "#CCC"]> (<["Run" := Some "#a6cee3"]> ∅))) |}.

Definition projectProto : SavedLabelingState :=
  {| saved_labels := []; saved_classes := Some ["__proto__"];
     saved_classColormap := None |}.

(** C5, as stated, fails on three kinds of store a project file can bring
    in.  With a class listed twice, a second [updateColors] changes the
    colour of the first entry.  With a class named [__proto__], the colour
    the first [updateColors] gives it is lost in the rebuilt map (the
    assignment reaches the inherited setter, which ignores a string), and
    a second [updateColors] replaces it by [Object.prototype].  And when a
    remaining class is already grey, the new class [IGNORE] is given the
    same grey. *)
Lemma updateColors_not_stable_nor_fresh :
  (let s := loadState projectTwice create in
   classes s = ["Walk"; "Walk"]
   ∧ classColors s = [Some (str "#a6cee3"); Some (str "#b2df8a")]
   ∧ classes (updateColors s) = classes s
   ∧ classColors (updateColors s)
     = [Some (str "#b2df8a"); Some (str "#b2df8a")])
  ∧ (let s := loadState projectProto create in
     NoDup (classes s)
     ∧ classes s = ["__proto__"]
     ∧ classColors s = [Some (str "#a6cee3")]
     ∧ classes (updateColors s) = classes s
     ∧ classColors (updateColors s) = [Some member])
  ∧ (let s := loadState projectGrey create in
     let s' := addClass "IGNORE" (removeClass "Run" s) in
     classes s = ["Walk"; "Run"]
     ∧ classes s' = ["Walk"; "IGNORE"]
     ∧ classColors s' = [Some (str "#CCC"); Some (str "#CCC")]).
Proof.
  cbv zeta. split; [|split].
  - repeat split; vm_compute; reflexivity.
  - split; [apply (bool_decide_unpack _); vm_compute; exact I|].
    repeat split; vm_compute; reflexivity.
  - repeat split; vm_compute; reflexivity.
Qed.

(** C5 (amended). Invoking [updateColors] again with the class list
    unchanged leaves the value the colour map has for any name unchanged
    and gives it to every entry of that name; on a class list without
    duplicates and without the name [__proto__] it leaves the whole store
    unchanged (every slot and every map entry).  And after removing a
    listed class and adding a class that is not among the remaining ones
    (each step recolours), the colour given to the new class, if it is
    given one, differs from the colour of every remaining class, provided
    the new class is not [IGNORE] or no remaining class is coloured
    ["#CCC"]; a new class that is given a member of [Object.prototype]
    instead is named like that member. *)
Theorem updateColors_stable_and_fresh (s : t) :
  (∀ (name : string) (v : color),
     originalColor (classColormap (updateColors s)) name = Some v →
     originalColor (classColormap (updateColors (updateColors s))) name
     = Some v
     ∧ ∀ i : nat, classes s !! i = Some name →
                  classColors (updateColors (updateColors s)) !! i
                  = Some (Some v))
  ∧ (NoDup (classes s) → "__proto__" ∉ classes s →
     updateColors (updateColors s) = updateColors s)
  ∧ (∀ (removed added p : string) (k : nat),
       let s1 := removeClass removed s in
       let s2 := addClass added s1 in
       removed ∈ classes s →
       added ∉ classes s1 →
       (added ≠ "IGNORE"
        ∨ ∀ j : nat, classColors s1 !! j ≠ Some (Some (str "#CCC"))) →
       classes s2 = classes s1 ++ [added]
       ∧ (classColors s2 !! length (classes s1) = Some (Some (str p)) →
          (k < length (classes s1))%nat →
          classColors s2 !! k ≠ Some (Some (str p)))
       ∧ (classColors s2 !! length (classes s1) = Some (Some member) →
          added ∈ prototypeKeys)).
Proof.
  split; [|split; [apply updateColors_idempotent|]].
  - intros name v Hcolor. split; [by apply updateColors_keeps_map|].
    intros i Hi.
    destruct (updateColors_lookup (updateColors s) i name) as (usedi & _ & ->).
    { by rewrite updateColors_classes. }
    unfold slotResult. by rewrite Hcolor.
  - intros removed added p k s1 s2 Hin Hnew Hgrey.
    destruct (removeClass_present removed s Hin) as (l1 & l2 & _ & _ & Heq).
    subst s2 s1. rewrite Heq in *. split; [|split].
    + rewrite addClass_new by done. by rewrite updateColors_classes.
    + intros Hlast Hk. by eapply appended_color_fresh.
    + rewrite addClass_new by done. intros Hlast.
      eapply updateColors_member; [|exact Hlast].
      cbn [classes]. rewrite lookup_app_r by lia. by rewrite Nat.sub_diag.
Qed.

Lemma updateColors_stable_and_fresh_witness :
  originalColor (classColormap (updateColors (updateColors fresh))) "Positive"
  = Some (str "#a6cee3")
  ∧ updateColors (updateColors fresh) = updateColors fresh
  ∧ classes (addClass "Walk" (removeClass "Positive" create))
    = ["IGNORE"; "Walk"]
  ∧ classColors (addClass "Walk" (removeClass "Positive" create)) !! 0%nat
    ≠ Some (Some (str "#a6cee3")).
Proof.
  split; [|split].
  - apply (proj1 (updateColors_stable_and_fresh fresh)).
    vm_compute. reflexivity.
  - apply (proj1 (proj2 (updateColors_stable_and_fresh fresh)));
      apply (bool_decide_unpack _); vm_compute; exact I.
  - assert ("Positive" ∈ classes create) as Hin
      by (apply (bool_decide_unpack _); vm_compute; exact I).
    assert ("Walk" ∉ classes (removeClass "Positive" create)) as Hnew
      by (apply (bool_decide_unpack _); vm_compute; exact I).
    destruct (proj2 (proj2 (updateColors_stable_and_fresh create))
                "Positive" "Walk" "#a6cee3" 0%nat Hin Hnew)
      as (Hclasses & Hfresh & _).
    + left. discriminate.
    + split; [exact Hclasses|]. apply Hfresh.
      * vm_compute. reflexivity.
      * vm_compute. lia.
Defined.

(** *** Removing the labels of a class *)

Lemma remove_all_lookup {T} (l : list (nat * T)) (ix : gmap nat T) (ref : nat) :
  foldl (λ ix item, TimeRangeIndex.remove item.1 ix) ix l !! ref
  = if decide (ref ∈ l.*1) then None else ix !! ref.
Proof.
  revert ix. induction l as [|[r x] l IH]; intros ix.
  - cbn [foldl fmap list_fmap]. destruct (decide _) as [Hin|_]; [|done].
    by inversion Hin.
  - cbn [foldl fmap list_fmap fst]. rewrite IH. unfold TimeRangeIndex.remove.
    destruct (decide (ref ∈ l.*1)) as [Hin|Hnot].
    + destruct (decide _) as [_|Hnot]; [done|]. exfalso. apply Hnot. by right.
    + destruct (decide (r = ref)) as [->|Hne].
      * rewrite lookup_delete_eq. destruct (decide _) as [_|Hn]; [done|].
        exfalso. apply Hn. left.
      * rewrite lookup_delete_ne by done.
        destruct (decide _) as [Hin|_]; [|done].
        apply elem_of_cons in Hin. destruct Hin as [->|Hin]; done.
Qed.

Lemma removeLabelsOf_lookup (name : string) (ix : gmap nat Label)
    (ref : nat) (l : Label) :
  removeLabelsOf name ix !! ref = Some l ↔
  ix !! ref = Some l ∧ className l ≠ name.
Proof.
  unfold removeLabelsOf, TimeRangeIndex.items.
  set (toRemove := filter (λ item, className item.2 = name) (map_to_list ix)).
  assert (∀ r : nat, r ∈ toRemove.*1 ↔
                     ∃ x, ix !! r = Some x ∧ className x = name) as Hrem.
  { intros r. rewrite list_elem_of_fmap. split.
    - intros ([r' x] & -> & Hin). apply list_elem_of_filter in Hin as [Hc Hin].
      apply elem_of_map_to_list in Hin. eauto.
    - intros (x & Hx & Hc). exists (r, x). split; [done|].
      apply list_elem_of_filter. split; [done|]. by apply elem_of_map_to_list. }
  destruct (decide (0 < Z.of_nat (length toRemove))) as [Hsome|Hnone].
  - rewrite remove_all_lookup. destruct (decide (ref ∈ toRemove.*1)) as [Hin|Hnot].
    + apply Hrem in Hin as (x & Hx & Hc). split; [done|].
      intros [Hl Hne]. rewrite Hx in Hl. injection Hl as ->. done.
    + split; [|by intros [? _]]. intros Hl. split; [done|].
      intros Hc. apply Hnot, Hrem. eauto.
  - assert (toRemove = []) as Hnil by (destruct toRemove; [done|cbn in Hnone; lia]).
    split; [|by intros [? _]]. intros Hl. split; [done|].
    intros Hc. assert (ref ∈ toRemove.*1) as Hin by (apply Hrem; eauto).
    rewrite Hnil in Hin. by inversion Hin.
Qed.

Lemma removeClass_labels (name : string) (s : t) :
  _labelsIndex (removeClass name s) = removeLabelsOf name (_labelsIndex s).
Proof.
  unfold removeClass. destruct (decide _); [|done].
  by rewrite updateColors_labels.
Qed.

(** A store with two labels, and the project file with a class listed
    twice loaded into it. *)
Definition walkLabel : Label :=
  {| timestampStart := 1%float; timestampEnd := 2%float; className := "Walk";
     state := "confirmed"; suggestionConfidence := 0%float;
     suggestionGeneration := 0%float |}.

Definition runLabel : Label :=
  {| timestampStart := 2%float; timestampEnd := 3%float; className := "Run";
     state := "confirmed"; suggestionConfidence := 0%float;
     suggestionGeneration := 0%float |}.

Definition labelled : t :=
  loadState {| saved_labels := [(1%nat, walkLabel); (2%nat, runLabel)];
               saved_classes := Some ["IGNORE"; "Walk"; "Run"];
               saved_classColormap := None |} create.

(** C10, as stated, fails on a class list that names the class twice (a
    project file can bring one in): [removeClass] takes out the first entry
    only, and the class is still listed afterwards. *)
Lemma removeClass_leaves_duplicate :
  let s := loadState projectTwice create in
  classes s = ["Walk"; "Walk"]
  ∧ classes (removeClass "Walk" s) = ["Walk"]
  ∧ "Walk" ∈ classes (removeClass "Walk" s).
Proof.
  cbv zeta. split; [vm_compute; reflexivity|].
  split; [vm_compute; reflexivity|].
  apply (bool_decide_unpack _). vm_compute. exact I.
Qed.

(** C10 (amended). For every store and class name [name], after
    [removeClass name] the label index holds exactly the labels it held
    whose class is not [name] (every label of the class is gone, every
    other label stays); the first entry [name] of the class list is
    removed (a list that does not name the class stays as it is); and when
    the class list has no duplicates, [name] is no longer in it. *)
Theorem removeClass_removes_labels (s : t) (name : string) :
  (∀ (ref : nat) (l : Label),
     _labelsIndex (removeClass name s) !! ref = Some l ↔
     _labelsIndex s !! ref = Some l ∧ className l ≠ name)
  ∧ (∀ l1 l2, classes s = l1 ++ name :: l2 → name ∉ l1 →
              classes (removeClass name s) = l1 ++ l2)
  ∧ (name ∉ classes s → classes (removeClass name s) = classes s)
  ∧ (NoDup (classes s) → name ∉ classes (removeClass name s)).
Proof.
  split; [|split; [|split; [intros Hnot; by rewrite removeClass_absent|]]].
  - intros ref l. rewrite removeClass_labels. apply removeLabelsOf_lookup.
  - intros l1 l2 Hcs Hnot.
    assert (name ∈ classes s) as Hin.
    { rewrite Hcs. apply elem_of_app. right. left. }
    destruct (removeClass_present name s Hin) as (k1 & k2 & Hcs' & Hnot' & ->).
    rewrite updateColors_classes. cbn [classes].
    rewrite Hcs in Hcs'.
    assert (l1 = k1) as <-.
    { revert k1 Hcs' Hnot'. clear Hcs Hin. induction l1 as [|x l1 IH];
        intros [|y k1] Heq Hnot'; cbn in Heq.
      - done.
      - injection Heq as <- _. exfalso. apply Hnot'. left.
      - injection Heq as -> _. exfalso. apply Hnot. left.
      - injection Heq as <- Heq. f_equal. apply IH; [|done|].
        + intros Hx. apply Hnot. by right.
        + intros Hy. apply Hnot'. by right. }
    apply app_inv_head in Hcs'. by injection Hcs' as <-.
  - intros Hnodup. destruct (decide (name ∈ classes s)) as [Hin|Hnot].
    + destruct (removeClass_present name s Hin) as (k1 & k2 & Hcs & Hnot & ->).
      rewrite updateColors_classes. cbn [classes]. rewrite Hcs in Hnodup.
      apply NoDup_app in Hnodup as (_ & Hdisj & Hnodup).
      apply NoDup_cons in Hnodup as [Hk2 _].
      intros Hin'. apply elem_of_app in Hin'. destruct Hin' as [Hin'|Hin']; done.
    + by rewrite removeClass_absent.
Qed.

Lemma removeClass_removes_labels_witness :
  _labelsIndex (removeClass "Walk" labelled) !! 2%nat = Some runLabel
  ∧ _labelsIndex (removeClass "Walk" labelled) !! 1%nat = None
  ∧ classes (removeClass "Walk" labelled) = ["IGNORE"; "Run"]
  ∧ "Walk" ∉ classes (removeClass "Walk" labelled).
Proof.
  destruct (removeClass_removes_labels labelled "Walk")
    as (Hlabels & Hfirst & _ & Hgone).
  split; [|split; [|split]].
  - apply Hlabels. split; [vm_compute; reflexivity|discriminate].
  - destruct (_labelsIndex (removeClass "Walk" labelled) !! 1%nat)
      as [l|] eqn:Hl; [|reflexivity].
    apply Hlabels in Hl as [Hl Hne]. vm_compute in Hl.
    injection Hl as <-. by exfalso.
  - apply (Hfirst ["IGNORE"] ["Run"]).
    + vm_compute. reflexivity.
    + apply (bool_decide_unpack _). vm_compute. exact I.
  - apply Hgone. apply (bool_decide_unpack _). vm_compute. exact I.
Defined.

(** *** The cached aligned dataset *)

Section alignedDataset.
(** The getter reads [projectUiStore.currentTab] and [projectStore.tracks]
    and owns the private field [_alignedDataset] (initially [null]).  It
    never looks inside a dataset or a track, so both types are left open,
    and [makeNewAlignedDataset] is taken as the function it calls. *)
Context {Dataset Track : Type}.
Variable makeNewAlignedDataset : list Track → Dataset.




End alignedDataset.




Example create_colors :
  classColors create = [Some (str "#CCC"); Some (str "#a6cee3")].
Proof. vm_compute. reflexivity. Qed.

Example create_then_add :
  classColors (addClass "Walk" create)
  = [Some (str "#CCC"); Some (str "#a6cee3"); Some (str "#b2df8a")].
Proof. vm_compute. reflexivity. Qed.

(** *** [makeNewAlignedDataset] *)

Section makeNewAlignedDataset.

(** Modelled from the spec: [resampleColumn] is in
    [dataStructures/sampling], which is not among the sources.  Per the
    spec it resamples one dimension linearly onto the uniform grid of the
    new dataset; [resampleColumn column t0 t1 tMin tMax n] is the call
    [resampleColumn(column, t0, t1, tMin, tMax, n)], and the column it
    returns has the [n] samples asked for. *)
Variable resampleColumn :
  list float → float → float → js float → js float → float → list float.

Hypothesis resampleColumn_samples :
  ∀ column t0 t1 tMin tMax n (k : N),
    sampleCount n = Some k →
    N.of_nat (length (resampleColumn column t0 t1 tMin tMax n)) = k.

(** [(ts.timeSeries[0].dimensions[0].length - 1) / ts.duration]; [None]
    stands for the [TypeError] of reading a field of [undefined], when the
    track has no time series or the series no dimension. *)
Definition trackSampleRate (ts : Dataset.Track) : option float :=
  series ← Dataset.timeSeries ts !! 0%nat;
  column ← Dataset.dimensions series !! 0%nat;
  Some ((numberOfNat (length column) - 1) / Dataset.duration ts)%float.

(** [makeNewAlignedDataset(tracks)]: an entry of [tracks] may be [null] or
    [undefined] and is then skipped. *)
Definition makeNewAlignedDataset (tracks : list (js Dataset.Track))
    : option Dataset.Dataset :=
  let tracksToMerge :=
    omap (λ track, match track with val t => Some t | _ => None end) tracks in
  let tMin := d3_min (Dataset.referenceStart <$> tracksToMerge) in
  let tMax := d3_max (Dataset.referenceEnd <$> tracksToMerge) in
  rates ← mapM trackSampleRate tracksToMerge;
  let maxSampleRate := d3_max rates in
  let totalSamples :=
    ceil ((toNumber tMax - toNumber tMin) * toNumber maxSampleRate)%float in
  let actualSampleRate :=
    ((totalSamples - 1) / (toNumber tMax - toNumber tMin))%float in
  sensors ←
    mapM (λ ts,
            timeSeries ← Dataset.timeSeries ts !! 0%nat;
            Some {| Dataset.name := "aggregated";
                    Dataset.kind := Dataset.kind timeSeries;
                    Dataset.dimensions :=
                      (λ d, resampleColumn d (Dataset.referenceStart ts)
                              (Dataset.referenceEnd ts) tMin tMax totalSamples)
                        <$> Dataset.dimensions timeSeries;
                    Dataset.timestampStart := tMin;
                    Dataset.timestampEnd := tMax;
                    Dataset.sampleRate := actualSampleRate;
                    Dataset.scales := Dataset.scales timeSeries |})
         tracksToMerge;
  Some {| Dataset.sensors := sensors;
          Dataset.dataset_timestampStart := tMin;
          Dataset.dataset_timestampEnd := tMax |}.

(** The number of samples of a track: the length of the first dimension of
    its first time series. *)
Definition samplesOf (ts : Dataset.Track) : nat :=
  match Dataset.timeSeries ts !! 0%nat with
  | Some series =>
      match Dataset.dimensions series !! 0%nat with
      | Some column => length column
      | None => 0
      end
  | None => 0
  end.

(** A track the function can read: it has a first time series, and that
    series a first dimension. *)
Definition readable (ts : Dataset.Track) : Prop :=
  ∃ series column, Dataset.timeSeries ts !! 0%nat = Some series
                   ∧ Dataset.dimensions series !! 0%nat = Some column.

Lemma trackSampleRate_readable (ts : Dataset.Track) :
  readable ts →
  trackSampleRate ts
  = Some ((numberOfNat (samplesOf ts) - 1) / Dataset.duration ts)%float.
Proof.
  intros (series & column & Hseries & Hcolumn).
  unfold trackSampleRate, samplesOf. by rewrite Hseries; cbn; rewrite Hcolumn.
Qed.

Lemma rates_readable (tracks : list Dataset.Track) :
  Forall readable tracks →
  mapM trackSampleRate tracks
  = Some ((λ ts, (numberOfNat (samplesOf ts) - 1) / Dataset.duration ts)%float
            <$> tracks).
Proof.
  intros Hall. apply mapM_Some. induction Hall as [|ts tracks Hts _ IH].
  - constructor.
  - cbn [fmap list_fmap]. constructor; [|exact IH].
    by apply trackSampleRate_readable.
Qed.

Lemma non_null_tracks (tracks : list Dataset.Track) :
  omap (λ track : js Dataset.Track,
          match track with val t => Some t | _ => None end) (val <$> tracks)
  = tracks.
Proof. induction tracks as [|t tracks IH]; [done|]. cbn. by rewrite IH. Qed.

(** C6 (amended). For a list of tracks, none of them null, each with a
    first time series that has a dimension, let [tMin] be the smallest
    reference start and [tMax] the greatest reference end ([d3.min] and
    [d3.max]), [maxSampleRate] the greatest of (number of samples - 1) /
    duration over the tracks, and [totalSamples] the double
    [Math.ceil((tMax - tMin) * maxSampleRate)].  When [totalSamples] is a
    non-negative integer [k], [makeNewAlignedDataset] returns a dataset
    that spans [tMin, tMax] and has one sensor per track, in order; each
    sensor spans [tMin, tMax], and each of its dimensions is the
    corresponding dimension of the track resampled from the track's own
    reference bounds onto [tMin, tMax] with [totalSamples] samples, so it
    has exactly [k] samples. *)
Theorem makeNewAlignedDataset_resamples (tracks : list Dataset.Track) (k : N) :
  tracks ≠ [] →
  Forall readable tracks →
  let tMin := d3_min (Dataset.referenceStart <$> tracks) in
  let tMax := d3_max (Dataset.referenceEnd <$> tracks) in
  let maxSampleRate :=
    d3_max ((λ ts, (numberOfNat (samplesOf ts) - 1) / Dataset.duration ts)%float
              <$> tracks) in
  let totalSamples :=
    ceil ((toNumber tMax - toNumber tMin) * toNumber maxSampleRate)%float in
  sampleCount totalSamples = Some k →
  ∃ dataset : Dataset.Dataset,
    makeNewAlignedDataset (val <$> tracks) = Some dataset
    ∧ Dataset.dataset_timestampStart dataset = tMin
    ∧ Dataset.dataset_timestampEnd dataset = tMax
    ∧ length (Dataset.sensors dataset) = length tracks
    ∧ ∀ (i : nat) ts sensor,
        tracks !! i = Some ts →
        Dataset.sensors dataset !! i = Some sensor →
        Dataset.timestampStart sensor = tMin
        ∧ Dataset.timestampEnd sensor = tMax
        ∧ (∃ timeSeries,
             Dataset.timeSeries ts !! 0%nat = Some timeSeries
             ∧ Dataset.dimensions sensor
               = (λ d, resampleColumn d (Dataset.referenceStart ts)
                         (Dataset.referenceEnd ts) tMin tMax totalSamples)
                   <$> Dataset.dimensions timeSeries)
        ∧ ∀ d, d ∈ Dataset.dimensions sensor → N.of_nat (length d) = k.
Proof.
  intros _ Hreadable tMin tMax maxSampleRate totalSamples Hcount.
  unfold makeNewAlignedDataset. rewrite non_null_tracks.
  rewrite (rates_readable tracks Hreadable). cbn [mbind option_bind].
  fold tMin tMax maxSampleRate totalSamples.
  set (sensorOf := λ ts : Dataset.Track, _ ← _; _).
  destruct (mapM sensorOf tracks) as [sensors|] eqn:Hsensors.
  - cbn [mbind option_bind]. eexists. split; [reflexivity|].
    cbn [Dataset.dataset_timestampStart Dataset.dataset_timestampEnd
         Dataset.sensors].
    split; [done|]. split; [done|].
    apply mapM_Some in Hsensors. split.
    + symmetry. by eapply Forall2_length.
    + intros i ts sensor Hts Hsensor.
      pose proof (Forall2_lookup_lr _ _ _ _ _ _ Hsensors Hts Hsensor) as Hmade.
      unfold sensorOf in Hmade.
      destruct (Dataset.timeSeries ts !! 0%nat) as [timeSeries|]; [|done].
      cbn in Hmade. injection Hmade as <-. cbn.
      split; [done|]. split; [done|]. split; [eauto|].
      intros d Hd. apply list_elem_of_fmap in Hd as (column & -> & _).
      by apply resampleColumn_samples.
  - exfalso. apply mapM_None in Hsensors.
    apply Exists_exists in Hsensors as (ts & Hin & Hnone).
    apply (proj1 (Forall_forall _ _) Hreadable) in Hin
      as (series & column & Hseries & _).
    unfold sensorOf in Hnone. by rewrite Hseries in Hnone.
Qed.

End makeNewAlignedDataset.

(** A stand-in for [resampleColumn] that returns the number of samples
    asked for, all equal to the first sample of the column. *)
Definition constantColumn (column : list float) (t0 t1 : float)
    (tMin tMax : js float) (n : float) : list float :=
  replicate (N.to_nat (default 0%N (sampleCount n))) (default 0%float (head column)).

Lemma constantColumn_samples :
  ∀ column t0 t1 tMin tMax n (k : N),
    sampleCount n = Some k →
    N.of_nat (length (constantColumn column t0 t1 tMin tMax n)) = k.
Proof.
  intros column t0 t1 tMin tMax n k Hn. unfold constantColumn.
  rewrite Hn, length_replicate. cbn. apply N2Nat.id.
Qed.

(** Two tracks: five samples over the reference seconds 0 to 2, four
    samples over the reference seconds 1 to 4. *)
Definition fastTrack : Dataset.Track :=
  {| Dataset.referenceStart := 0; Dataset.referenceEnd := 2;
     Dataset.duration := 2;
     Dataset.timeSeries :=
       [{| Dataset.name := "imu"; Dataset.kind := "accelerometer";
           Dataset.dimensions := [[1; 2; 3; 4; 5]%float; [5; 4; 3; 2; 1]%float];
           Dataset.timestampStart := val 0%float;
           Dataset.timestampEnd := val 2%float;
           Dataset.sampleRate := 2; Dataset.scales := [] |}] |}.

Definition slowTrack : Dataset.Track :=
  {| Dataset.referenceStart := 1; Dataset.referenceEnd := 4;
     Dataset.duration := 3;
     Dataset.timeSeries :=
       [{| Dataset.name := "gyro"; Dataset.kind := "gyroscope";
           Dataset.dimensions := [[0; 0; 0; 0]%float];
           Dataset.timestampStart := val 0%float;
           Dataset.timestampEnd := val 3%float;
           Dataset.sampleRate := 1; Dataset.scales := [] |}] |}.

(** A track with a single sample: it lasts no time at all. *)
Definition stillTrack : Dataset.Track :=
  {| Dataset.referenceStart := 0; Dataset.referenceEnd := 0;
     Dataset.duration := 0;
     Dataset.timeSeries :=
       [{| Dataset.name := "imu"; Dataset.kind := "accelerometer";
           Dataset.dimensions := [[1]%float];
           Dataset.timestampStart := val 0%float;
           Dataset.timestampEnd := val 0%float;
           Dataset.sampleRate := 0; Dataset.scales := [] |}] |}.

(** A track without a time series. *)
Definition emptyTrack : Dataset.Track :=
  {| Dataset.referenceStart := 0; Dataset.referenceEnd := 1;
     Dataset.duration := 1; Dataset.timeSeries := [] |}.

(** C6, as stated, fails on a track that lasts no time.  For the single
    track [stillTrack] the sample rate is [0 / 0], which [d3.max] skips, so
    [maxSampleRate] is [undefined] and the count
    [Math.ceil((tMax - tMin) * maxSampleRate)] is [NaN]: the dataset is
    made, with one sensor and one dimension, resampled with [NaN] as the
    number of samples asked for, and no column has [NaN] samples, whatever
    [resampleColumn] returns.  And a track without a time series makes
    the function throw. *)
Lemma makeNewAlignedDataset_without_count :
  (let tMin := d3_min [Dataset.referenceStart stillTrack] in
   let tMax := d3_max [Dataset.referenceEnd stillTrack] in
   let maxSampleRate :=
     d3_max [((numberOfNat (samplesOf stillTrack) - 1)
              / Dataset.duration stillTrack)%float] in
   let totalSamples :=
     ceil ((toNumber tMax - toNumber tMin) * toNumber maxSampleRate)%float in
   tMin = val 0%float ∧ tMax = val 0%float
   ∧ maxSampleRate = undefined
   ∧ totalSamples = nan
   ∧ sampleCount totalSamples = None
   ∧ ∀ resampleColumn,
       makeNewAlignedDataset resampleColumn [val stillTrack]
       = Some {| Dataset.sensors :=
                   [{| Dataset.name := "aggregated";
                       Dataset.kind := "accelerometer";
                       Dataset.dimensions :=
                         [resampleColumn [1%float] 0%float 0%float
                            (val 0%float) (val 0%float) nan];
                       Dataset.timestampStart := val 0%float;
                       Dataset.timestampEnd := val 0%float;
                       Dataset.sampleRate := nan;
                       Dataset.scales := [] |}];
                 Dataset.dataset_timestampStart := val 0%float;
                 Dataset.dataset_timestampEnd := val 0%float |}
       ∧ sampleCount totalSamples
         ≠ Some (N.of_nat (length (resampleColumn [1%float] 0%float 0%float
                                     (val 0%float) (val 0%float) nan))))
  ∧ (∀ resampleColumn,
       makeNewAlignedDataset resampleColumn [val fastTrack; val emptyTrack]
       = None).
Proof.
  cbv zeta. split; [|done].
  split; [vm_compute; reflexivity|]. split; [vm_compute; reflexivity|].
  split; [vm_compute; reflexivity|]. split; [vm_compute; reflexivity|].
  split; [vm_compute; reflexivity|].
  intros resampleColumn. split; [reflexivity|].
  replace (sampleCount _) with (@None N) by (vm_compute; reflexivity).
  discriminate.
Qed.

Lemma makeNewAlignedDataset_resamples_witness :
  ∃ dataset : Dataset.Dataset,
    makeNewAlignedDataset constantColumn
      (val <$> [fastTrack; slowTrack]) = Some dataset
    ∧ Dataset.dataset_timestampStart dataset = val 0%float
    ∧ Dataset.dataset_timestampEnd dataset = val 4%float
    ∧ length (Dataset.sensors dataset) = 2%nat
    ∧ ∀ (i : nat) ts sensor,
        [fastTrack; slowTrack] !! i = Some ts →
        Dataset.sensors dataset !! i = Some sensor →
        Dataset.timestampStart sensor = val 0%float
        ∧ Dataset.timestampEnd sensor = val 4%float
        ∧ (∃ timeSeries,
             Dataset.timeSeries ts !! 0%nat = Some timeSeries
             ∧ Dataset.dimensions sensor
               = (λ d, constantColumn d (Dataset.referenceStart ts)
                         (Dataset.referenceEnd ts) (val 0%float) (val 4%float)
                         8%float)
                   <$> Dataset.dimensions timeSeries)
        ∧ ∀ d, d ∈ Dataset.dimensions sensor → N.of_nat (length d) = 8%N.
Proof.
  apply (makeNewAlignedDataset_resamples constantColumn constantColumn_samples
           [fastTrack; slowTrack] 8%N).
  - discriminate.
  - repeat constructor; eexists _, _; split; reflexivity.
  - vm_compute. reflexivity.
Defined.

(** *** The other actions of the store *)

(** [label.className = newClassName] on a label object. *)
Definition withClassName (newClassName : string) (label : Label) : Label :=
  {| timestampStart := timestampStart label;
     timestampEnd := timestampEnd label;
     className := newClassName;
     state := state label;
     suggestionConfidence := suggestionConfidence label;
     suggestionGeneration := suggestionGeneration label |}.

(** [renameClass].  The [forEach] rewrites the class of the labels in
    place.  The second component is the value written to
    [labelingUiStore.currentClass], if one is written. *)
Definition renameClass (oldClassName newClassName : string) (s : t)
    : t * option string :=
  if decide (indexOf newClassName (classes s) < 0) then
    let labels :=
      (λ label, if decide (className label = oldClassName)
                then withClassName newClassName label else label)
        <$> _labelsIndex s in
    let index := indexOf oldClassName (classes s) in
    if decide (0 ≤ index) then
      (updateColors {| _labelsIndex := labels;
                       classes := <[Z.to_nat index := newClassName]> (classes s);
                       classColors := classColors s;
                       classColormap := classColormap s |},
       Some newClassName)
    else
      ({| _labelsIndex := labels; classes := classes s;
          classColors := classColors s; classColormap := classColormap s |},
       None)
  else (s, None).

(** [nonIgnoreClases.length > 0 ? nonIgnoreClases[0] : null]. *)
Definition firstNonIgnore (classes : list string) : js string :=
  match filter (λ x, x ≠ "IGNORE") classes with
  | x :: _ => val x
  | [] => null
  end.

(** [reset]: the labels are cleared and the class list is replaced, but the
    colour map stays, so [updateColors] still sees the old colours.  The
    second component is the value written to
    [labelingUiStore.currentClass]. *)
Definition reset (s : t) : t * js string :=
  let s1 :=
    updateColors {| _labelsIndex := TimeRangeIndex.clear (_labelsIndex s);
                    classes := ["IGNORE"; "Positive"];
                    classColors := classColors s;
                    classColormap := classColormap s |} in
  (s1, firstNonIgnore (classes s1)).

(** [saveState]: the three fields, as they are. *)
Definition saveState (s : t) : SavedLabelingState :=
  {| saved_labels := TimeRangeIndex.items (_labelsIndex s);
     saved_classes := Some (classes s);
     saved_classColormap := classColormap s |}.

(** [addLabel], [removeLabel] and [removeAllLabels]; a label object is
    named by its identity. *)
Definition addLabel (ref : nat) (label : Label) (s : t) : t :=
  {| _labelsIndex := TimeRangeIndex.add ref label (_labelsIndex s);
     classes := classes s; classColors := classColors s;
     classColormap := classColormap s |}.

Definition removeLabel (ref : nat) (s : t) : t :=
  if TimeRangeIndex.has ref (_labelsIndex s) then
    {| _labelsIndex := TimeRangeIndex.remove ref (_labelsIndex s);
       classes := classes s; classColors := classColors s;
       classColormap := classColormap s |}
  else s.

Definition removeAllLabels (s : t) : t :=
  {| _labelsIndex := TimeRangeIndex.clear (_labelsIndex s);
     classes := classes s; classColors := classColors s;
     classColormap := classColormap s |}.

(** *** Enough colours for twenty classes *)

Lemma palettes_NoDup : NoDup colorbrewer6 ∧ NoDup d3category20.
Proof. split; apply (bool_decide_unpack _); vm_compute; exact I. Qed.

Lemma paletteFor_NoDup (cs : list string) : NoDup (paletteFor cs).
Proof. unfold paletteFor. destruct (decide _); apply palettes_NoDup. Qed.

(** The palette is chosen large enough for up to twenty classes. *)
Lemma paletteFor_length (cs : list string) :
  (length cs ≤ 20)%nat → (length cs ≤ length (paletteFor cs))%nat.
Proof.
  intros Hlen. unfold paletteFor, colorbrewer6, d3category20.
  destruct (decide _); cbn [length]; lia.
Qed.

(** The palette search succeeds while fewer values are in use than the
    palette has colours. *)
Lemma firstUnused_is_Some (palette : list string) (used : list color) :
  NoDup palette → (length used < length palette)%nat →
  is_Some (firstUnused palette used).
Proof.
  intros Hnodup Hlen.
  destruct (firstUnused palette used) as [p|] eqn:Hfirst; [eauto|].
  exfalso. assert (str <$> palette ⊆+ used) as Hsub.
  { apply NoDup_submseteq.
    - apply NoDup_fmap; [|done]. by intros p q [= ->].
    - intros v Hv. apply list_elem_of_fmap in Hv as (p & -> & Hp).
      by apply (proj1 (firstUnused_None _ _) Hfirst). }
  apply submseteq_length in Hsub. rewrite length_fmap in Hsub. lia.
Qed.

(** The number of slots still [null]. *)
Definition emptySlots (slots : list (option color)) : nat :=
  length (filter (λ slot, slot = None) slots).

Lemma assignNew_fills palette (cs : list string) :
  NoDup palette →
  ∀ slots used,
    length slots = length cs →
    (length used + emptySlots slots ≤ length palette)%nat →
    Forall is_Some (assignNew palette cs slots used).1.
Proof.
  intros Hnodup. induction cs as [|name cs IH]; intros slots used Hlen Hroom.
  - destruct slots; [constructor|done].
  - destruct slots as [|slot slots]; [done|].
    rewrite assignNew_cons. cbn [fst]. cbn [length] in Hlen.
    unfold emptySlots in Hroom. rewrite filter_cons in Hroom.
    destruct slot as [color|].
    + destruct (decide _) as [|_]; [done|]. constructor; [by eexists|].
      apply IH; [lia|]. exact Hroom.
    + destruct (decide _) as [_|]; [|done]. cbn [length] in Hroom.
      assert (is_Some (slotResult palette name None used)) as [c Hc].
      { unfold slotResult. destruct (decide _); [by eexists|].
        destruct (firstUnused_is_Some palette used) as [p ->]; [done|lia|].
        by eexists. }
      rewrite Hc. constructor; [by eexists|]. apply IH; [lia|].
      cbn [usedAfter]. rewrite length_app. cbn [length].
      unfold emptySlots. lia.
Qed.

Lemma kept_and_empty m (cs : list string) :
  (length (omap (originalColor m) cs)
   + emptySlots (originalColor m <$> cs) = length cs)%nat.
Proof.
  unfold emptySlots. induction cs as [|name cs IH]; [done|].
  rewrite fmap_cons, filter_cons.
  replace (omap (originalColor m) (name :: cs))
    with (match originalColor m name with
          | Some color => color :: omap (originalColor m) cs
          | None => omap (originalColor m) cs
          end) by reflexivity.
  destruct (originalColor m name) as [color|].
  - destruct (decide _) as [|_]; [done|]. cbn [length]. lia.
  - destruct (decide _) as [_|]; [|done]. cbn [length]. lia.
Qed.

Lemma updateColors_colours_all_aux (s : t) :
  (length (classes s) ≤ 20)%nat →
  ∀ (i : nat) slot, classColors (updateColors s) !! i = Some slot →
                    ∃ color, slot = Some color.
Proof.
  intros Hsmall i slot Hslot.
  assert (Forall is_Some (classColors (updateColors s))) as Hall.
  { rewrite updateColors_colors.
    apply assignNew_fills; [apply paletteFor_NoDup|by rewrite length_fmap|].
    rewrite kept_and_empty. by apply paletteFor_length. }
  apply (proj1 (Forall_lookup _ _) Hall) in Hslot as [c ->]. eauto.
Qed.

(** X5. With at most twenty classes, whatever the class names and the prior
    colour map, [updateColors] leaves no slot [null]: every class holds a
    string that is not empty, except that a class named like a member of
    [Object.prototype] holds that member when the lookup in the prior map
    finds it. *)
Theorem updateColors_colours_all (s : t) (i : nat) (name : string) :
  (length (classes s) ≤ 20)%nat →
  classes s !! i = Some name →
  ∃ v : color,
    classColors (updateColors s) !! i = Some (Some v)
    ∧ match v with
      | str c => c ≠ ""
      | member =>
          name ∈ prototypeKeys
          ∧ originalColor (classColormap s) name = Some member
      end.
Proof.
  intros Hsmall Hname.
  destruct (lookup_lt_is_Some_2 (classColors (updateColors s)) i) as [slot Hslot].
  { rewrite updateColors_length. by eapply lookup_lt_Some. }
  destruct (updateColors_colours_all_aux s Hsmall i slot Hslot) as [v ->].
  exists v. split; [done|]. destruct v as [c|].
  - by eapply updateColors_nonempty.
  - by apply (updateColors_member s i).
Qed.

Lemma updateColors_colours_all_witness :
  ∃ v : color,
    classColors (updateColors fresh) !! 1%nat = Some (Some v)
    ∧ match v with
      | str c => c ≠ ""
      | member =>
          "Positive" ∈ prototypeKeys
          ∧ originalColor (classColormap fresh) "Positive" = Some member
      end.
Proof.
  apply (updateColors_colours_all fresh 1%nat "Positive").
  - vm_compute. lia.
  - reflexivity.
Defined.

(** *** Stores reached through the store's own actions *)

(** No two slots hold the same colour, and only [IGNORE] is grey. *)
Definition distinctColors (s : t) : Prop :=
  ∀ (i j : nat) (c : string),
    classColors s !! i = Some (Some (str c)) →
    classColors s !! j = Some (Some (str c)) →
    i = j.

Definition greyIsIgnore (s : t) : Prop :=
  ∀ i : nat, classColors s !! i = Some (Some (str "#CCC")) →
             classes s !! i = Some "IGNORE".

(** A class named like a member of [Object.prototype] holds that member. *)
Definition membersKept (s : t) : Prop :=
  ∀ (i : nat) name, classes s !! i = Some name → name ∈ prototypeKeys →
                    classColors s !! i = Some (Some member).

(** What [updateColors] needs to find: no class listed twice, no colour
    kept for two listed classes, grey kept for [IGNORE] only, and for a
    class named like a member of [Object.prototype] that member. *)
Definition Recolorable (s : t) : Prop :=
  NoDup (classes s)
  ∧ (∀ n1 n2 c, n1 ∈ classes s → n2 ∈ classes s →
                originalColor (classColormap s) n1 = Some (str c) →
                originalColor (classColormap s) n2 = Some (str c) → n1 = n2)
  ∧ (∀ n, n ∈ classes s →
          originalColor (classColormap s) n = Some (str "#CCC") → n = "IGNORE")
  ∧ (∀ n, n ∈ classes s → n ∈ prototypeKeys →
          originalColor (classColormap s) n = Some member).

(** What it leaves behind. *)
Record Coloured (s : t) : Prop := {
  coloured_nodup : NoDup (classes s);
  coloured_length : length (classColors s) = length (classes s);
  coloured_map :
    classColormap s = Some (rebuildColormap (classes s) (classColors s));
  coloured_truthy :
    ∀ (i : nat) name v, classes s !! i = Some name →
                        classColors s !! i = Some (Some v) →
                        truthy name v = true;
  coloured_distinct : distinctColors s;
  coloured_grey : greyIsIgnore s;
  coloured_members : membersKept s;
  coloured_full :
    (length (classes s) ≤ 20)%nat → Forall is_Some (classColors s)
}.

(** The stores the constructor and the actions produce; [loadState] is left
    out, a project file can hold anything. *)
Inductive Reachable : t → Prop :=
| reach_create : Reachable create
| reach_addClass name s : Reachable s → Reachable (addClass name s)
| reach_removeClass name s : Reachable s → Reachable (removeClass name s)
| reach_renameClass oldName newName s :
    Reachable s → Reachable (renameClass oldName newName s).1
| reach_reset s : Reachable s → Reachable (reset s).1
| reach_addLabel ref label s : Reachable s → Reachable (addLabel ref label s)
| reach_removeLabel ref s : Reachable s → Reachable (removeLabel ref s)
| reach_removeAllLabels s : Reachable s → Reachable (removeAllLabels s).

Lemma slot_cases (s : t) (i : nat) (c : string) :
  classColors (updateColors s) !! i = Some (Some (str c)) →
  ∃ name,
    classes s !! i = Some name
    ∧ (originalColor (classColormap s) name = Some (str c)
       ∨ (originalColor (classColormap s) name = None
          ∧ ((name = "IGNORE" ∧ c = "#CCC")
             ∨ (name ≠ "IGNORE" ∧ c ∈ paletteFor (classes s)
                ∧ ¬ usedBefore s i c)))).
Proof.
  intros Hslot.
  destruct (classes s !! i) as [name|] eqn:Hname.
  - exists name. split; [done|].
    destruct (updateColors_lookup s i name Hname) as (usedi & Hmem & Hres).
    rewrite Hres in Hslot. apply (inj Some) in Hslot.
    unfold slotResult in Hslot.
    destruct (originalColor (classColormap s) name) as [c'|]; [by left|].
    right. split; [done|]. destruct (decide (name = "IGNORE")).
    + left. by injection Hslot as <-.
    + right. destruct (firstUnused _ usedi) as [q|] eqn:Hfirst; [|done].
      injection Hslot as ->.
      apply firstUnused_in_palette in Hfirst as [Hin Hfree].
      split; [done|]. split; [done|]. intros Hused. by apply Hfree, Hmem.
  - apply lookup_ge_None in Hname. apply lookup_lt_Some in Hslot.
    rewrite updateColors_length in Hslot. lia.
Qed.

Lemma updateColors_distinct_lt (s : t) (i j : nat) (c : string) :
  Recolorable s → (i < j)%nat →
  classColors (updateColors s) !! i = Some (Some (str c)) →
  classColors (updateColors s) !! j = Some (Some (str c)) → False.
Proof.
  intros (Hnodup & Hkept & Hgrey & _) Hlt Hi Hj.
  destruct (slot_cases s i c Hi) as (ni & Hni & Hci).
  destruct (slot_cases s j c Hj) as (nj & Hnj & Hcj).
  assert (ni ≠ nj) as Hne.
  { intros ->. assert (i = j) by by eapply NoDup_lookup. lia. }
  assert (ni ∈ classes s) as Hini by (apply list_elem_of_lookup; eauto).
  assert (nj ∈ classes s) as Hinj by (apply list_elem_of_lookup; eauto).
  assert (usedBefore s j c) as Hused.
  { destruct Hci as [Hci|[Hci _]].
    - left. eauto.
    - right. exists i, ni. done. }
  destruct Hcj as [Hcj|[Hcj [[-> ->]|(_ & _ & Hfree)]]]; [| |done].
  - destruct Hci as [Hci|[Hci [[-> ->]|(_ & Hin & Hfree)]]].
    + by apply Hne, (Hkept ni nj c).
    + by apply Hne; symmetry; apply Hgrey.
    + apply Hfree. left. eauto.
  - destruct Hci as [Hci|[Hci [[-> _]|(_ & Hin & _)]]]; [|done|].
    + by apply Hne, Hgrey.
    + by apply palette_nonempty in Hin as [_ Hin].
Qed.

Lemma recolor (s : t) : Recolorable s → Coloured (updateColors s).
Proof.
  intros Hpre. split.
  - rewrite updateColors_classes. apply Hpre.
  - rewrite updateColors_classes. apply updateColors_length.
  - by rewrite updateColors_colormap, updateColors_classes.
  - intros i name v. rewrite updateColors_classes. apply updateColors_truthy.
  - intros i j c Hi Hj. destruct (Nat.lt_trichotomy i j) as [Hlt|[->|Hlt]].
    + by destruct (updateColors_distinct_lt s i j c).
    + done.
    + by destruct (updateColors_distinct_lt s j i c).
  - intros i Hi. rewrite updateColors_classes.
    destruct Hpre as (_ & _ & Hgrey & _).
    destruct (slot_cases s i "#CCC" Hi) as (name & Hname & Hc).
    rewrite Hname. f_equal.
    destruct Hc as [Hc|[_ [[-> _]|(_ & Hin & _)]]]; [|done|].
    + apply Hgrey; [|done]. apply list_elem_of_lookup. eauto.
    + by apply palette_nonempty in Hin as [_ Hin].
  - intros i name. rewrite updateColors_classes. intros Hname Hkey.
    destruct Hpre as (_ & _ & _ & Hmembers).
    destruct (updateColors_lookup s i name Hname) as (usedi & _ & ->).
    unfold slotResult. rewrite Hmembers; [done| |done].
    apply list_elem_of_lookup. eauto.
  - rewrite updateColors_classes. intros Hsmall.
    apply Forall_lookup. intros i slot Hslot.
    destruct (updateColors_colours_all_aux s Hsmall i slot Hslot) as [c ->].
    by eexists.
Qed.

(** The map of a coloured store is plain: the slot of a class [__proto__]
    holds [Object.prototype], and writing that back changes nothing. *)
Lemma coloured_plain (s : t) :
  Coloured s → plain (rebuildColormap (classes s) (classColors s)).
Proof.
  intros Hs. apply rebuildColormap_plain. intros i Hi.
  by rewrite (coloured_members s Hs i "__proto__" Hi proto_key).
Qed.

Lemma coloured_original (s : t) (name c : string) :
  Coloured s → originalColor (classColormap s) name = Some (str c) →
  ∃ i : nat, classes s !! i = Some name
             ∧ classColors s !! i = Some (Some (str c)).
Proof.
  intros Hs Horig. rewrite (coloured_map s Hs) in Horig.
  apply originalColor_str in Horig as [Hown _].
  by apply rebuildColormap_Some in Hown.
Qed.

(** In a coloured store the lookup for a name gives the value of the slot
    of that name; for a name that is not listed, the member of
    [Object.prototype] of that name, if there is one. *)
Lemma coloured_lookup (s : t) (i : nat) (name : string) (v : color) :
  Coloured s → classes s !! i = Some name →
  classColors s !! i = Some (Some v) →
  originalColor (classColormap s) name = Some v.
Proof.
  intros Hs Hname Hslot. rewrite (coloured_map s Hs).
  destruct (decide (name = "__proto__")) as [->|Hne].
  - rewrite (coloured_members s Hs i _ Hname proto_key) in Hslot.
    injection Hslot as <-.
    destruct (coloured_plain s Hs) as [Hp Ho].
    rewrite (originalColor_inherited _ _ Ho).
    rewrite bool_decide_eq_true_2; [done|]. split; [done|apply proto_key].
  - apply originalColor_own.
    + by apply (rebuildColormap_nodup _ _ i);
        [apply Hs|apply Hs| | |].
    + by apply (coloured_truthy s Hs i).
Qed.

Lemma coloured_unlisted (s : t) (name : string) :
  Coloured s → name ∉ classes s → name ∈ prototypeKeys →
  originalColor (classColormap s) name = Some member.
Proof.
  intros Hs Hnot Hkey. rewrite (coloured_map s Hs).
  rewrite (originalColor_inherited _ _ (rebuildColormap_unlisted _ _ _ Hnot)).
  destruct (coloured_plain s Hs) as [Hp _].
  by rewrite bool_decide_eq_true_2.
Qed.

(** Any duplicate-free class list can be recoloured from the map of a
    coloured store. *)
Lemma recolorable_next (s s' : t) :
  Coloured s → NoDup (classes s') → classColormap s' = classColormap s →
  Recolorable s'.
Proof.
  intros Hs Hnodup Hmap. split; [done|]. rewrite Hmap. split; [|split].
  - intros n1 n2 c _ _ H1 H2.
    destruct (coloured_original s n1 c Hs H1) as (i & Hn1 & Hi).
    destruct (coloured_original s n2 c Hs H2) as (j & Hn2 & Hj).
    assert (i = j) as -> by by eapply (coloured_distinct s Hs).
    rewrite Hn1 in Hn2. by injection Hn2.
  - intros n _ Hgrey.
    destruct (coloured_original s n "#CCC" Hs Hgrey) as (i & Hn & Hi).
    apply (coloured_grey s Hs) in Hi. rewrite Hn in Hi. by injection Hi.
  - intros n _ Hkey. destruct (decide (n ∈ classes s)) as [Hin|Hnot].
    + apply list_elem_of_lookup in Hin as [i Hi].
      apply (coloured_lookup s i); [done|done|].
      by apply (coloured_members s Hs i n).
    + by apply coloured_unlisted.
Qed.

Lemma coloured_ext (s s' : t) :
  classes s' = classes s → classColors s' = classColors s →
  classColormap s' = classColormap s → Coloured s → Coloured s'.
Proof.
  intros Hc Hcol Hmap [H1 H2 H3 H4 H5 H6 H7 H8].
  split; unfold distinctColors, greyIsIgnore, membersKept;
    rewrite ?Hc, ?Hcol, ?Hmap; done.
Qed.

Lemma create_coloured : Coloured create.
Proof.
  apply recolor. split; [|split; [|split]]; cbn.
  - apply (bool_decide_unpack _). vm_compute. exact I.
  - done.
  - done.
  - intros n Hn Hkey. exfalso.
    assert (Forall (λ n, n ∉ prototypeKeys) ["IGNORE"; "Positive"]) as Hnone
      by (apply (bool_decide_unpack _); vm_compute; exact I).
    by apply (proj1 (Forall_forall _ _) Hnone n).
Qed.

Lemma NoDup_replace (cs : list string) (oldName newName : string) :
  NoDup cs → newName ∉ cs → 0 ≤ indexOf oldName cs →
  NoDup (<[Z.to_nat (indexOf oldName cs) := newName]> cs).
Proof.
  intros Hnodup Hnew Hidx.
  destruct (indexOf_split oldName cs Hidx) as (l1 & l2 & Hcs & _ & ->).
  rewrite Hcs in *. clear Hcs.
  replace (length l1) with (length l1 + 0)%nat by lia.
  rewrite insert_app_r. cbn.
  apply NoDup_app in Hnodup as (H1 & Hdisj & H2).
  apply NoDup_cons in H2 as [_ H2].
  apply NoDup_app. split; [done|]. split.
  - intros x Hx Hx'. apply elem_of_cons in Hx'. destruct Hx' as [->|Hx'].
    + apply Hnew. apply elem_of_app. by left.
    + apply (Hdisj x Hx). by right.
  - apply NoDup_cons. split; [|done]. intros Hin. apply Hnew.
    apply elem_of_app. right. by right.
Qed.

Lemma reachable_is_coloured (s : t) : Reachable s → Coloured s.
Proof.
  induction 1 as [|name s _ IH|name s _ IH|oldName newName s _ IH|s _ IH
                  |ref label s _ IH|ref s _ IH|s _ IH].
  - apply create_coloured.
  - destruct (decide (name ∈ classes s)) as [Hin|Hnot].
    + unfold addClass. apply indexOf_found in Hin.
      destruct (decide _); [lia|done].
    + rewrite addClass_new by done. apply recolor.
      apply (recolorable_next s); [done| |done]. cbn [classes].
      apply NoDup_app. split; [apply IH|]. split; [|apply NoDup_singleton].
      intros x Hx Hx'. apply list_elem_of_singleton in Hx'. by subst x.
  - destruct (decide (name ∈ classes s)) as [Hin|Hnot].
    + destruct (removeClass_present name s Hin) as (l1 & l2 & Hcs & _ & ->).
      apply recolor. apply (recolorable_next s); [done| |done]. cbn [classes].
      pose proof (coloured_nodup s IH) as Hnodup. rewrite Hcs in Hnodup.
      apply NoDup_app in Hnodup as (H1 & Hdisj & H2).
      apply NoDup_cons in H2 as [_ H2].
      apply NoDup_app. split; [done|]. split; [|done].
      intros x Hx Hx'. apply (Hdisj x Hx). by right.
    + rewrite removeClass_absent by done. by apply (coloured_ext s).
  - unfold renameClass. destruct (decide _) as [Hnew|]; [|done].
    apply indexOf_absent in Hnew.
    destruct (decide _) as [Hold|]; cbn [fst].
    + apply recolor. apply (recolorable_next s); [done| |done]. cbn [classes].
      apply NoDup_replace; [apply IH|done|done].
    + by apply (coloured_ext s).
  - cbn [reset fst]. apply recolor.
    apply (recolorable_next s); [done| |done]. cbn [classes].
    apply (bool_decide_unpack _). vm_compute. exact I.
  - by apply (coloured_ext s).
  - unfold removeLabel. destruct (TimeRangeIndex.has _ _); [|done].
    by apply (coloured_ext s).
  - by apply (coloured_ext s).
Qed.

(** X6. In every store reached from the constructor through [addClass],
    [removeClass], [renameClass], [reset] and the label actions: no class
    is listed twice, every class has a colour slot, no two classes have
    the same colour, only [IGNORE] is grey, a class named like a member of
    [Object.prototype] holds that member in place of a colour, and with at
    most twenty classes every other class holds a colour, a string that is
    not empty. *)
Theorem reachable_colours_distinct (s : t) :
  Reachable s →
  NoDup (classes s)
  ∧ length (classColors s) = length (classes s)
  ∧ (∀ (i j : nat) (c : string),
       classColors s !! i = Some (Some (str c)) →
       classColors s !! j = Some (Some (str c)) → i = j)
  ∧ (∀ i : nat, classColors s !! i = Some (Some (str "#CCC")) →
                classes s !! i = Some "IGNORE")
  ∧ (∀ (i : nat) name,
       classes s !! i = Some name →
       (name ∈ prototypeKeys ↔ classColors s !! i = Some (Some member)))
  ∧ ((length (classes s) ≤ 20)%nat →
     ∀ (i : nat) name,
       classes s !! i = Some name → name ∉ prototypeKeys →
       ∃ c, classColors s !! i = Some (Some (str c)) ∧ c ≠ "").
Proof.
  intros Hreach.
  apply reachable_is_coloured in Hreach as [H1 H2 H3 H4 H5 H6 H7 H8].
  split; [done|]. split; [done|]. split; [exact H5|]. split; [exact H6|].
  split.
  - intros i name Hname. split; [by apply H7|].
    intros Hslot. apply (H4 i name member Hname) in Hslot.
    by apply bool_decide_eq_true in Hslot.
  - intros Hsmall i name Hname Hkey.
    destruct (lookup_lt_is_Some_2 (classColors s) i) as [slot Hslot].
    { rewrite H2. by eapply lookup_lt_Some. }
    pose proof (proj1 (Forall_lookup _ _) (H8 Hsmall) i slot Hslot) as [v ->].
    pose proof (H4 i name v Hname Hslot) as Htrue.
    destruct v as [c|].
    + exists c. split; [done|]. cbn in Htrue.
      by apply negb_true_iff, bool_decide_eq_false in Htrue.
    + by apply bool_decide_eq_true in Htrue.
Qed.

Lemma reachable_colours_distinct_witness :
  NoDup (classes (renameClass "Positive" "Run" (addClass "toString" create)).1)
  ∧ classColors
      (renameClass "Positive" "Run" (addClass "toString" create)).1 !! 2%nat
    = Some (Some member)
  ∧ ∃ c, classColors
           (renameClass "Positive" "Run" (addClass "toString" create)).1 !! 1%nat
         = Some (Some (str c)) ∧ c ≠ "".
Proof.
  destruct (reachable_colours_distinct
              (renameClass "Positive" "Run" (addClass "toString" create)).1)
    as (Hnodup & _ & _ & _ & Hmember & Hfull).
  - apply reach_renameClass, reach_addClass, reach_create.
  - split; [exact Hnodup|]. split.
    + apply (Hmember 2%nat "toString"); [reflexivity|].
      apply (bool_decide_unpack _). vm_compute. exact I.
    + apply (Hfull ltac:(vm_compute; lia) 1%nat "Run"); [reflexivity|].
      apply (bool_decide_unpack _). vm_compute. exact I.
Defined.

(** *** How the actions compose *)

(** [updateColors] reads the class list and the colour map only. *)
Lemma updateColors_congr (s s' : t) :
  classes s = classes s' → classColormap s = classColormap s' →
  classColors (updateColors s) = classColors (updateColors s')
  ∧ classColormap (updateColors s) = classColormap (updateColors s').
Proof.
  intros Hc Hm. assert (classColors (updateColors s)
                        = classColors (updateColors s')) as Hcol.
  { by rewrite !updateColors_colors, Hc, Hm. }
  split; [done|]. by rewrite !updateColors_colormap, Hcol, Hc.
Qed.

(** Recolouring a store that holds the classes and the map of a recoloured
    store, duplicate-free and without [__proto__], gives that store's
    colours again. *)
Lemma recoloured_again (s0 s' : t) :
  NoDup (classes s0) → "__proto__" ∉ classes s0 →
  classes s' = classes s0 →
  classColormap s' = classColormap (updateColors s0) →
  classColors (updateColors s') = classColors (updateColors s0)
  ∧ classColormap (updateColors s') = classColormap (updateColors s0).
Proof.
  intros Hnodup Hproto Hc Hm.
  destruct (updateColors_congr s' (updateColors s0)) as [H1 H2].
  - by rewrite updateColors_classes.
  - done.
  - by rewrite H1, H2, updateColors_idempotent.
Qed.

(** X7. Adding a class puts it on the list; adding it again, or adding a class
    that is already listed, changes nothing at all. *)
Theorem addClass_idempotent (name : string) (s : t) :
  name ∈ classes (addClass name s)
  ∧ addClass name (addClass name s) = addClass name s
  ∧ (name ∈ classes s → addClass name s = s).
Proof.
  assert (∀ s', name ∈ classes s' → addClass name s' = s') as Hlisted.
  { intros s' Hin. unfold addClass. apply indexOf_found in Hin.
    destruct (decide _); [lia|done]. }
  assert (name ∈ classes (addClass name s)) as Hin.
  { destruct (decide (name ∈ classes s)) as [Hin|Hnot].
    - by rewrite Hlisted.
    - rewrite addClass_new, updateColors_classes by done. cbn [classes].
      apply elem_of_app. right. left. }
  split; [done|]. split; [by apply Hlisted|apply Hlisted].
Qed.

(** X8. [renameClass] to a name that is already listed does nothing.
    Otherwise every label of the old class gets the new class name and no
    other label changes, whether or not the old class is listed; if it is
    listed, its first entry is replaced in place and the new name is written
    to the current class; if it is not, the class list and the colours stay
    as they are and nothing is written. *)
Theorem renameClass_relabels (oldName newName : string) (s : t) :
  (newName ∈ classes s → renameClass oldName newName s = (s, None))
  ∧ (newName ∉ classes s →
     (∀ ref : nat,
        _labelsIndex (renameClass oldName newName s).1 !! ref
        = (λ label, if decide (className label = oldName)
                    then withClassName newName label else label)
            <$> _labelsIndex s !! ref)
     ∧ (∀ l1 l2, classes s = l1 ++ oldName :: l2 → oldName ∉ l1 →
                 classes (renameClass oldName newName s).1
                 = l1 ++ newName :: l2
                 ∧ (renameClass oldName newName s).2 = Some newName)
     ∧ (oldName ∉ classes s →
        classes (renameClass oldName newName s).1 = classes s
        ∧ classColors (renameClass oldName newName s).1 = classColors s
        ∧ (renameClass oldName newName s).2 = None)).
Proof.
  split.
  - intros Hin. unfold renameClass. apply indexOf_found in Hin.
    destruct (decide _); [lia|done].
  - intros Hnew. apply indexOf_absent in Hnew. unfold renameClass.
    destruct (decide (indexOf newName (classes s) < 0)); [|lia].
    split; [|split].
    + intros ref.
      destruct (decide _); cbn [fst]; rewrite ?updateColors_labels;
        cbn [_labelsIndex]; apply lookup_fmap.
    + intros l1 l2 Hcs Hnot.
      assert (oldName ∈ classes s) as Hin.
      { rewrite Hcs. apply elem_of_app. right. left. }
      apply indexOf_found in Hin.
      destruct (indexOf_split oldName (classes s) Hin)
        as (k1 & k2 & Hcs' & Hnot' & Hidx).
      destruct (decide _); [|lia]. cbn [fst snd]. split; [|done].
      rewrite updateColors_classes. cbn [classes]. rewrite Hidx.
      assert (l1 = k1) as <-.
      { rewrite Hcs in Hcs'. clear -Hcs' Hnot Hnot'. revert k1 Hcs' Hnot'.
        induction l1 as [|x l1 IH]; intros [|y k1] Heq Hnot'; cbn in Heq.
        - done.
        - injection Heq as <- _. exfalso. apply Hnot'. left.
        - injection Heq as -> _. exfalso. apply Hnot. left.
        - injection Heq as <- Heq. f_equal. apply IH; [|done|].
          + intros Hx. apply Hnot. by right.
          + intros Hy. apply Hnot'. by right. }
      rewrite Hcs. replace (length l1) with (length l1 + 0)%nat by lia.
      by rewrite insert_app_r.
    + intros Hold. apply indexOf_absent in Hold.
      destruct (decide _); [lia|]. done.
Qed.

(** X9. [reset] leaves the two default classes, no label, and [Positive] as
    the current class; it keeps the colour map, so a colour the map held
    for one of the two classes survives the reset; and resetting twice is
    the same as resetting once. *)
Theorem reset_keeps_colours (s : t) :
  classes (reset s).1 = ["IGNORE"; "Positive"]
  ∧ _labelsIndex (reset s).1 = ∅
  ∧ (reset s).2 = val "Positive"
  ∧ (∀ name c, name ∈ ["IGNORE"; "Positive"] →
               originalColor (classColormap s) name = Some c →
               originalColor (classColormap (reset s).1) name = Some c)
  ∧ reset (reset s).1 = reset s.
Proof.
  assert (NoDup ["IGNORE"; "Positive"]) as Hnodup
    by (apply (bool_decide_unpack _); vm_compute; exact I).
  assert ("__proto__" ∉ ["IGNORE"; "Positive"]) as Hproto
    by (apply (bool_decide_unpack _); vm_compute; exact I).
  unfold reset. cbn [fst snd]. rewrite !updateColors_classes. cbn [classes].
  split; [done|]. split; [by rewrite updateColors_labels|].
  split; [reflexivity|]. split.
  - intros name c Hin Horig. apply updateColors_keeps; [done|done|].
    by intros ->.
  - f_equal. apply store_eq.
    + by rewrite !updateColors_labels.
    + by rewrite !updateColors_classes.
    + by apply recoloured_again.
    + by apply recoloured_again.
Qed.

(** X10. Saving a recoloured store whose class list has no duplicates and
    no class named [__proto__], and loading the saved state into any
    store, brings back the class list, every colour slot and the colour
    map. *)
Theorem saveState_loadState (s0 other : t) :
  NoDup (classes s0) →
  "__proto__" ∉ classes s0 →
  let s := updateColors s0 in
  let loaded := loadState (saveState s) other in
  classes loaded = classes s
  ∧ classColors loaded = classColors s
  ∧ classColormap loaded = classColormap s.
Proof.
  intros Hnodup Hproto s loaded. subst loaded s. unfold loadState, saveState.
  cbn [saved_classes saved_classColormap saved_labels classes classColors
       classColormap].
  rewrite !updateColors_classes. cbn [classes]. split; [done|].
  by apply recoloured_again.
Qed.

Lemma saveState_loadState_witness :
  classes (loadState (saveState create) (addClass "Walk" create))
  = ["IGNORE"; "Positive"]
  ∧ classColors (loadState (saveState create) (addClass "Walk" create))
    = classColors create
  ∧ classColormap (loadState (saveState create) (addClass "Walk" create))
    = classColormap create.
Proof.
  apply (saveState_loadState fresh (addClass "Walk" create));
    apply (bool_decide_unpack _); vm_compute; exact I.
Defined.

Lemma renameClass_relabels_witness :
  renameClass "Walk" "Run" labelled = (labelled, None)
  ∧ _labelsIndex (renameClass "Walk" "Stroll" labelled).1 !! 1%nat
    = Some (withClassName "Stroll" walkLabel)
  ∧ classes (renameClass "Walk" "Stroll" labelled).1
    = ["IGNORE"; "Stroll"; "Run"].
Proof.
  destruct (renameClass_relabels "Walk" "Run" labelled) as [Hlisted _].
  destruct (renameClass_relabels "Walk" "Stroll" labelled) as [_ Hnew].
  split.
  - apply Hlisted. apply (bool_decide_unpack _). vm_compute. exact I.
  - destruct Hnew as (Hlabels & Hfirst & _).
    + apply (bool_decide_unpack _). vm_compute. exact I.
    + split.
      * rewrite Hlabels. vm_compute. reflexivity.
      * apply (Hfirst ["IGNORE"] ["Run"]).
        -- vm_compute. reflexivity.
        -- apply (bool_decide_unpack _). vm_compute. exact I.
Defined.

(** *** Adding a class and removing it again *)

(** A class that has a value to keep gets that value. *)
Lemma updateColors_kept_slot (s : t) (i : nat) (name : string) (v : color) :
  classes s !! i = Some name →
  originalColor (classColormap s) name = Some v →
  classColors (updateColors s) !! i = Some (Some v).
Proof.
  intros Hname Horig.
  destruct (updateColors_lookup s i name Hname) as (usedi & _ & ->).
  unfold slotResult. by rewrite Horig.
Qed.

(** X11. In a store reached through the store's own actions, with at most
    twenty classes, adding a class that is not listed and removing it again
    brings back the class list, every colour slot and the colour map. *)
Theorem addClass_removeClass (s : t) (name : string) :
  Reachable s →
  (length (classes s) ≤ 20)%nat →
  name ∉ classes s →
  classes (removeClass name (addClass name s)) = classes s
  ∧ classColors (removeClass name (addClass name s)) = classColors s
  ∧ classColormap (removeClass name (addClass name s)) = classColormap s.
Proof.
  intros Hreach Hsmall Hnew.
  apply reachable_is_coloured in Hreach as Hs.
  assert (Coloured (addClass name s)) as Ha.
  { apply reachable_is_coloured. by apply reach_addClass. }
  pose proof (coloured_nodup s Hs) as Hnodup.
  pose proof (coloured_full s Hs Hsmall) as Hfull.
  rewrite addClass_new in * by done.
  set (sa := {| _labelsIndex := _labelsIndex s;
                classes := classes s ++ [name];
                classColors := classColors s;
                classColormap := classColormap s |}) in *.
  assert (name ∈ classes (updateColors sa)) as Hin.
  { rewrite updateColors_classes. cbn [sa classes].
    apply elem_of_app. right. left. }
  destruct (removeClass_present name (updateColors sa) Hin)
    as (l1 & l2 & Hcs & Hnot & ->).
  rewrite updateColors_classes in Hcs. cbn [sa classes] in Hcs.
  assert (l1 = classes s ∧ l2 = []) as [-> ->].
  { clear -Hcs Hnot Hnew. revert l1 Hcs Hnot.
    induction (classes s) as [|x cs IH]; intros l1 Hcs Hnot.
    - destruct l1 as [|y l1]; cbn in Hcs.
      + by injection Hcs as <-.
      + injection Hcs as <- Hcs. by destruct l1.
    - destruct l1 as [|y l1]; cbn in Hcs.
      + injection Hcs as -> _. exfalso. apply Hnew. left.
      + injection Hcs as <- Hcs. destruct (IH) with (l1 := l1) as [-> ->].
        * intros Hx. apply Hnew. by right.
        * done.
        * intros Hx. apply Hnot. by right.
        * done. }
  rewrite app_nil_r in *.
  set (sr := {| _labelsIndex := removeLabelsOf name (_labelsIndex (updateColors sa));
                classes := classes s;
                classColors := classColors (updateColors sa);
                classColormap := classColormap (updateColors sa) |}).
  assert (classColors (updateColors sr) = classColors s) as Hcolors.
  { apply list_eq. intros i.
    destruct (classes s !! i) as [namei|] eqn:Hnamei.
    - destruct (lookup_lt_is_Some_2 (classColors s) i) as [slot Hslot].
      { rewrite (coloured_length s Hs). by eapply lookup_lt_Some. }
      destruct (proj1 (Forall_lookup _ _) Hfull i slot Hslot) as [c ->].
      rewrite Hslot. apply (updateColors_kept_slot sr i namei c); [done|].
      cbn [sr classColormap].
      assert (classes (updateColors sa) !! i = Some namei) as Hnamei'.
      { rewrite updateColors_classes. cbn [sa classes].
        by rewrite lookup_app_l by by eapply lookup_lt_Some. }
      apply (coloured_lookup _ i); [done|done|].
      rewrite updateColors_classes in Hnamei'.
      apply (updateColors_kept_slot sa i namei c); [done|].
      cbn [sa classColormap]. by apply (coloured_lookup s i).
    - apply lookup_ge_None in Hnamei.
      rewrite (lookup_ge_None_2 (classColors s))
        by by rewrite (coloured_length s Hs).
      apply lookup_ge_None. by rewrite updateColors_length. }
  split; [by rewrite updateColors_classes|]. split; [done|].
  rewrite updateColors_colormap, Hcolors. cbn [sr classes].
  symmetry. apply (coloured_map s Hs).
Qed.

Lemma addClass_removeClass_witness :
  classes (removeClass "Walk" (addClass "Walk" create)) = classes create
  ∧ classColors (removeClass "Walk" (addClass "Walk" create))
    = classColors create
  ∧ classColormap (removeClass "Walk" (addClass "Walk" create))
    = classColormap create.
Proof.
  apply (addClass_removeClass create "Walk").
  - apply reach_create.
  - vm_compute. lia.
  - apply (bool_decide_unpack _). vm_compute. exact I.
Defined.

End LabelingStore.

(** ** The alignment view *)

Module AlignmentView.

(** Times and pixel positions are doubles; the gestures compare them,
    subtract and divide them, and pass them on to the stores. *)

(** Modelled from the spec: [Track], [Marker] and [PanZoomParameters] are
    declared in [stores/dataStructures], which is not among the sources.
    The fields are those the view reads.  A marker is an object compared
    by identity, so it carries the address [marker_ref]. *)
Record TimeSeries : Type := {
  timestampStart : float;
  timestampEnd : float
}.

Record Track : Type := {
  track_id : string;
  timeSeries : list TimeSeries;
  isAlignedToReferenceTrack : bool
}.

Record Marker : Type := {
  marker_ref : nat;
  localTimestamp : float;
  track : Track
}.

(** [new PanZoomParameters(rangeStart, pixelsPerSecond)]; the view passes
    [null] for the second argument on the reference track. *)
Record PanZoomParameters : Type := {
  rangeStart : float;
  pixelsPerSecond : js float
}.

Inductive Knob : Type := top | bottom.

(** What a handler reads from a mouse event: the pointer position and the
    two attributes of the element under it.  [data_marker_index] is
    [parseInt(target.getAttribute('data-marker-index'), 10)], with [None]
    for [NaN]. *)
Record MouseEvent : Type := {
  clientX : float;
  clientY : float;
  data_type : option string;
  data_marker_index : option Z
}.

(** The calls a gesture makes on [alignmentStore] and [projectUiStore], in
    order.  The stores are not among the sources; a gesture is described by
    the calls it issues.  [selectMarkerCorrespondence] is applied to what
    [addMarkerCorrespondence] returned for the same two markers. *)
Inductive StoreCall : Type :=
| setReferenceTrackPanZoom (p : PanZoomParameters)
| setTrackPanZoom (t : Track) (p : PanZoomParameters)
| addMarker (m : Marker)
| selectMarker (m : Marker)
| addMarkerCorrespondence (m1 : Marker) (m2 : js Marker)
| selectMarkerCorrespondence (m1 : Marker) (m2 : js Marker).

Definition isPanZoom (c : StoreCall) : Prop :=
  match c with
  | setReferenceTrackPanZoom _ | setTrackPanZoom _ _ => True
  | _ => False
  end.

Definition isAddMarker (c : StoreCall) : Prop :=
  match c with addMarker _ => True | _ => False end.

(** Modelled from the spec: [startDragging] is in [stores/utils], which is
    not among the sources.  Per the spec a drag installs temporary global
    listeners for the duration of the gesture and removes them on release:
    the move handler runs on every move event, in order, then the up
    handler runs once. *)
Definition startDragging {S E : Type} (onMove : E → S → S) (onUp : S → S)
    (moves : list E) (s : S) : S :=
  onUp (foldl (λ s e, onMove e s) s moves).

(** *** [onTrackMouseDown] *)

(** A move event of the pan gesture, with the value
    [projectUiStore.referenceTrackPanZoom.pixelsPerSecond] has when the
    handler reads it. *)
Record PanMove : Type := {
  pan_event : MouseEvent;
  referencePixelsPerSecond : float
}.

(** [Math.abs(x1 - x0) >= 3]. *)
Definition reaches3 (x0 : float) (mv : PanMove) : Prop :=
  (3 <=? abs (clientX (pan_event mv) - x0))%float = true.

#[local] Instance reaches3_dec (x0 : float) (mv : PanMove) :
  Decision (reaches3 x0 mv).
Proof. unfold reaches3. apply _. Defined.

(** The call the move handler issues once the gesture counts as moved. *)
Definition panCall (track0 : Track)
    (pps rangeStart0 referenceRangeStart x0 : float)
    (mv : PanMove) : StoreCall :=
  let x1 := clientX (pan_event mv) in
  if isAlignedToReferenceTrack track0 then
    let dt := ((x1 - x0) / referencePixelsPerSecond mv)%float in
    setReferenceTrackPanZoom
      {| rangeStart := (referenceRangeStart - dt)%float;
         pixelsPerSecond := null |}
  else
    let dt := ((x1 - x0) / pps)%float in
    setTrackPanZoom track0
      {| rangeStart := (rangeStart0 - dt)%float; pixelsPerSecond := val pps |}.

(** The closure state of the gesture: the flag [moved] and the calls made. *)
Definition panMove (track0 : Track)
    (pps rangeStart0 referenceRangeStart x0 : float)
    (mv : PanMove) (s : bool * list StoreCall) : bool * list StoreCall :=
  if s.1 || bool_decide (reaches3 x0 mv) then
    (true, s.2 ++ [panCall track0 pps rangeStart0 referenceRangeStart x0 mv])
  else s.

Definition panUp (track0 : Track) (time : float) (newRef : nat)
    (s : bool * list StoreCall) : bool * list StoreCall :=
  if negb s.1 then
    let marker :=
      {| marker_ref := newRef; localTimestamp := time; track := track0 |} in
    (s.1, s.2 ++ [addMarker marker; selectMarker marker])
  else s.

(** [onTrackMouseDown(event, track, time, pps)].  [rangeStart0] and
    [referenceRangeStart] are what [getTrackPanZoom(track).rangeStart] and
    [referenceTrackPanZoom.rangeStart] hold at the press; [newRef] is the
    address [new Marker] gets.  The result is [None] when
    [track.timeSeries[0]] is undefined and reading its field throws. *)
Definition onTrackMouseDown (event : MouseEvent) (track0 : Track)
    (time pps rangeStart0 referenceRangeStart : float) (newRef : nat)
    (moves : list PanMove) : option (list StoreCall) :=
  match timeSeries track0 !! 0%nat with
  | None => None
  | Some series =>
      if (time <? timestampStart series)%float
         || (timestampEnd series <? time)%float
      then Some []
      else
        let x0 := clientX event in
        Some (startDragging
                (panMove track0 pps rangeStart0 referenceRangeStart x0)
                (panUp track0 time newRef) moves (false, [])).2
  end.

(** *** [startCreatingCorrespondence] *)

(** [AlignmentViewState]; every field is optional and starts undefined. *)
Record AlignmentViewState : Type := {
  isCreatingCorrespondence : js bool;
  markerStartKnob : js Knob;
  markerStart : js Marker;
  markerTarget : js Marker;
  currentPosition : js (float * float)
}.

Definition initialState : AlignmentViewState :=
  {| isCreatingCorrespondence := undefined; markerStartKnob := undefined;
     markerStart := undefined; markerTarget := undefined;
     currentPosition := undefined |}.

(** What the handlers read besides the component state: the markers of
    [alignmentStore], the tracks of [projectStore] in their visible order,
    and the corner of the interaction rectangle. *)
Record Stores : Type := {
  markers : list Marker;
  tracks : list Track;
  rectLeft : float;
  rectTop : float
}.

(** [a === b] on values that are markers, [null] or [undefined]: objects
    are equal when they are the same object. *)
Definition sameMarker (a b : js Marker) : bool :=
  match a, b with
  | undefined, undefined => true
  | null, null => true
  | val m1, val m2 => bool_decide (marker_ref m1 = marker_ref m2)
  | _, _ => false
  end.

(** [array[index]] for a number that is an integer. *)
Definition at_index {A} (l : list A) (index : Z) : js A :=
  if decide (0 ≤ index) then
    match l !! Z.to_nat index with Some x => val x | None => undefined end
  else undefined.

Definition getRelativePosition (env : Stores) (event : MouseEvent) : float * float :=
  ((clientX event - rectLeft env)%float, (clientY event - rectTop env)%float).

Definition findCandidateMarker (env : Stores) (event : MouseEvent) : js Marker :=
  match data_type event with
  | Some ty =>
      if decide (ty = "marker") then
        match data_marker_index event with
        | Some index => at_index (markers env) index
        | None => null
        end
      else null
  | None => null
  end.

(** [stores.projectStore.tracks.map(t => t.id).indexOf(m.track.id)]. *)
Definition trackIndex (env : Stores) (m : Marker) : Z :=
  indexOf (track_id (track m)) (track_id <$> tracks env).

(** The component state with the store calls made so far. *)
Definition View : Type := AlignmentViewState * list StoreCall.

(** The move handler.  [None] stands for the [TypeError] raised by
    [this.state.markerStart.track] when [markerStart] is not an object.
    The handlers run from native listeners, where [setState] has taken
    effect by the time the next event is handled; it merges the given
    fields into the state and keeps the others. *)
Definition correspondenceMove (env : Stores) (marker : Marker)
    (moveEvent : MouseEvent) (v : option View) : option View :=
  match v with
  | None => None
  | Some (st, calls) =>
      let candidate := findCandidateMarker env moveEvent in
      let candidate :=
        if sameMarker candidate (markerStart st) then null else candidate in
      let checked :=
        match candidate with
        | val c =>
            match markerStart st with
            | val start =>
                let trackIndex1 := trackIndex env start in
                let trackIndex2 := trackIndex env c in
                if negb (bool_decide (trackIndex2 = trackIndex1 - 1)
                         || bool_decide (trackIndex2 = trackIndex1 + 1))
                then Some null else Some candidate
            | _ => None
            end
        | _ => Some candidate
        end in
      match checked with
      | None => None
      | Some candidate =>
          Some ({| isCreatingCorrespondence := val true;
                   markerStartKnob := markerStartKnob st;
                   markerStart := val marker;
                   markerTarget := candidate;
                   currentPosition := val (getRelativePosition env moveEvent) |},
                calls)
      end
  end.

Definition correspondenceUp (marker : Marker) (v : option View) : option View :=
  match v with
  | None => None
  | Some (st, calls) =>
      let lastCandidate := markerTarget st in
      let st' :=
        {| isCreatingCorrespondence := val false; markerStartKnob := null;
           markerStart := null; markerTarget := null;
           currentPosition := null |} in
      if negb (sameMarker lastCandidate (val marker))
         && negb (sameMarker lastCandidate null)
      then Some (st', calls ++ [addMarkerCorrespondence marker lastCandidate;
                                selectMarkerCorrespondence marker lastCandidate])
      else Some (st', calls)
  end.

(** The state the press on a knob puts the view in. *)
Definition pressed (marker : Marker) (knob : Knob) (v : View) : View :=
  ({| isCreatingCorrespondence := val true; markerStartKnob := val knob;
      markerStart := val marker; markerTarget := null;
      currentPosition := null |},
   v.2 ++ [selectMarker marker]).

(** The view while the drag is under way, after the given move events. *)
Definition dragging (env : Stores) (marker : Marker) (knob : Knob)
    (moves : list MouseEvent) (v : View) : option View :=
  foldl (λ s e, correspondenceMove env marker e s)
        (Some (pressed marker knob v)) moves.

Definition startCreatingCorrespondence (env : Stores) (marker : Marker)
    (knob : Knob) (moves : list MouseEvent) (v : View) : option View :=
  startDragging (correspondenceMove env marker) (correspondenceUp marker)
    moves (Some (pressed marker knob v)).

(** [Math.abs(x1 - x0) >= 3] is false: the pointer is within the click
    tolerance (or a position is not a number). *)
Definition below3 (x0 : float) (mv : PanMove) : Prop :=
  (3 <=? abs (clientX (pan_event mv) - x0))%float = false.

Lemma below3_not_reaches3 (x0 : float) (mv : PanMove) :
  below3 x0 mv ↔ ¬ reaches3 x0 mv.
Proof. unfold below3, reaches3. by destruct (_ <=? _)%float. Qed.

Section panGesture.
Variables (track0 : Track) (pps rangeStart0 referenceRangeStart x0 : float).

Let moveHandler := panMove track0 pps rangeStart0 referenceRangeStart x0.

(** Below the threshold the handler does nothing. *)
Lemma panMoves_still (moves : list PanMove) :
  Forall (below3 x0) moves →
  foldl (λ s e, moveHandler e s) (false, []) moves = (false, []).
Proof.
  induction 1 as [|mv moves Hmv _ IH]; [done|].
  cbn [foldl]. unfold moveHandler at 2, panMove. cbn [fst].
  apply below3_not_reaches3 in Hmv.
  rewrite (bool_decide_eq_false_2 _ Hmv). exact IH.
Qed.

(** Once moved, every further event pans, whatever its displacement. *)
Lemma panMoves_moved (moves : list PanMove) (calls : list StoreCall) :
  foldl (λ s e, moveHandler e s) (true, calls) moves
  = (true,
     calls ++ (panCall track0 pps rangeStart0 referenceRangeStart x0 <$> moves)).
Proof.
  revert calls. induction moves as [|mv moves IH]; intros calls.
  - cbn. by rewrite app_nil_r.
  - cbn [foldl fmap list_fmap]. unfold moveHandler at 2, panMove. cbn [fst snd orb].
    rewrite IH. by rewrite <- app_assoc.
Qed.

(** The first event that reaches the threshold starts the panning: the
    calls are those for that event and for every event after it. *)
Lemma panMoves_reached (moves : list PanMove) :
  Exists (reaches3 x0) moves →
  ∃ before mv rest,
    moves = before ++ mv :: rest
    ∧ foldl (λ s e, moveHandler e s) (false, []) moves
      = (true,
         panCall track0 pps rangeStart0 referenceRangeStart x0 <$> mv :: rest).
Proof.
  induction moves as [|mv moves IH]; intros Hex; [by inversion Hex|].
  cbn [foldl]. unfold moveHandler at 2, panMove. cbn [fst snd orb].
  destruct (decide (reaches3 x0 mv)) as [Hmv|Hmv].
  - rewrite (bool_decide_eq_true_2 _ Hmv). exists [], mv, moves.
    split; [done|]. by rewrite panMoves_moved.
  - rewrite (bool_decide_eq_false_2 _ Hmv).
    destruct IH as (before & mv' & rest & -> & Hrun); [by inversion Hex|].
    exists (mv :: before), mv', rest. split; [done|exact Hrun].
Qed.

End panGesture.

Lemma panCall_isPanZoom (track0 : Track)
    (pps rangeStart0 referenceRangeStart x0 : float) (mv : PanMove) :
  isPanZoom (panCall track0 pps rangeStart0 referenceRangeStart x0 mv).
Proof. unfold panCall. by destruct (isAlignedToReferenceTrack track0). Qed.

(** A press within the bounds of the first time series starts the drag. *)
Lemma onTrackMouseDown_within (event : MouseEvent) (track0 : Track)
    (time pps rangeStart0 referenceRangeStart : float) (newRef : nat)
    (moves : list PanMove) (series : TimeSeries) :
  timeSeries track0 !! 0%nat = Some series →
  (timestampStart series <=? time)%float = true →
  (time <=? timestampEnd series)%float = true →
  onTrackMouseDown event track0 time pps rangeStart0 referenceRangeStart
    newRef moves
  = Some (panUp track0 time newRef
            (foldl (λ s e, panMove track0 pps rangeStart0 referenceRangeStart
                             (clientX event) e s) (false, []) moves)).2.
Proof.
  intros Hseries Hstart Hend. unfold onTrackMouseDown. rewrite Hseries.
  by rewrite (leb_ltb_false _ _ Hstart), (leb_ltb_false _ _ Hend).
Qed.

(** C9. A press on a track at a time within the bounds of its first time
    series starts a gesture that ends in one of two ways.  If no move
    event reaches 3 pixels of horizontal displacement from the press
    point, the release creates a marker at the pressed time on that track
    and selects it, and no pan-zoom call is made.  If some move event
    reaches 3 pixels, the view pans: at least one pan-zoom call is made,
    and every call of the gesture is a pan-zoom call that moves the range
    start to where the press found it minus the displacement of a move
    event from the press point divided by the scale (on the reference
    pan-zoom, with its current scale, when the track is aligned to the
    reference track; on the track's own pan-zoom, with the scale of the
    press, when it is not), the last call that of the last move event;
    the release creates no marker. *)
Theorem click_or_pan (event : MouseEvent) (track0 : Track)
    (time pps rangeStart0 referenceRangeStart : float) (newRef : nat)
    (moves : list PanMove) (series : TimeSeries) :
  timeSeries track0 !! 0%nat = Some series →
  (timestampStart series <=? time)%float = true →
  (time <=? timestampEnd series)%float = true →
  ∃ calls : list StoreCall,
    onTrackMouseDown event track0 time pps rangeStart0 referenceRangeStart
      newRef moves = Some calls
    ∧ (Forall (below3 (clientX event)) moves →
       let marker :=
         {| marker_ref := newRef; localTimestamp := time; track := track0 |} in
       calls = [addMarker marker; selectMarker marker])
    ∧ (Exists (reaches3 (clientX event)) moves →
       let panned := λ mv : PanMove,
         let dx := (clientX (pan_event mv) - clientX event)%float in
         if isAlignedToReferenceTrack track0
         then setReferenceTrackPanZoom
                {| rangeStart :=
                     (referenceRangeStart
                      - dx / referencePixelsPerSecond mv)%float;
                   pixelsPerSecond := null |}
         else setTrackPanZoom track0
                {| rangeStart := (rangeStart0 - dx / pps)%float;
                   pixelsPerSecond := val pps |} in
       (∃ c, c ∈ calls ∧ isPanZoom c)
       ∧ (∀ c, c ∈ calls →
               isPanZoom c ∧ ¬ isAddMarker c
               ∧ ∃ mv, mv ∈ moves ∧ c = panned mv)
       ∧ (∀ mv, last moves = Some mv → last calls = Some (panned mv))).
Proof.
  intros Hseries Hstart Hend.
  rewrite (onTrackMouseDown_within _ _ _ _ _ _ _ _ series) by done.
  eexists. split; [reflexivity|]. split.
  - intros Hstill. rewrite panMoves_still by done. reflexivity.
  - intros Hreach.
    destruct (panMoves_reached track0 pps rangeStart0 referenceRangeStart
                (clientX event) moves Hreach) as (before & mv & rest & -> & ->).
    unfold panUp. cbn [fst snd negb]. split; [|split].
    + eexists. split; [left|]. apply panCall_isPanZoom.
    + intros c Hc. apply list_elem_of_fmap in Hc as (mv' & -> & Hmv').
      split; [apply panCall_isPanZoom|]. split.
      * pose proof (panCall_isPanZoom track0 pps rangeStart0
                      referenceRangeStart (clientX event) mv') as Hpan.
        destruct (panCall _ _ _ _ _ _); cbn in *; tauto.
      * exists mv'. split; [|reflexivity].
        apply elem_of_app. by right.
    + intros mvl Hlast.
      assert (last (mv :: rest) = Some mvl) as Hlast'.
      { rewrite last_app in Hlast.
        destruct (last (mv :: rest)) as [mv'|] eqn:Hsome; [done|].
        rewrite last_cons in Hsome. by destruct (last rest). }
      rewrite fmap_last, Hlast'. cbn [fmap option_fmap option_map].
      reflexivity.
Qed.

(** A track with samples from second 0 to second 10, pressed at second 5
    with the pointer at x = 100. *)
Definition imuTrack : Track :=
  {| track_id := "imu";
     timeSeries := [{| timestampStart := 0%float; timestampEnd := 10%float |}];
     isAlignedToReferenceTrack := false |}.

Definition pointerAt (x : float) : MouseEvent :=
  {| clientX := x; clientY := 40%float;
     data_type := None; data_marker_index := None |}.

Definition panTo (x : float) : PanMove :=
  {| pan_event := pointerAt x; referencePixelsPerSecond := 20%float |}.

Lemma click_or_pan_witness :
  onTrackMouseDown (pointerAt 100) imuTrack 5%float 20%float
    0%float 0%float 9%nat [panTo 101; panTo 98]
  = Some [addMarker {| marker_ref := 9%nat; localTimestamp := 5%float;
                       track := imuTrack |};
          selectMarker {| marker_ref := 9%nat; localTimestamp := 5%float;
                          track := imuTrack |}]
  ∧ ∃ calls : list StoreCall,
      onTrackMouseDown (pointerAt 100) imuTrack 5%float 16%float
        0.5%float 0%float 9%nat [panTo 101; panTo 104; panTo 96]
      = Some calls
      ∧ (∃ c, c ∈ calls ∧ isPanZoom c)
      ∧ (∀ c, c ∈ calls → ¬ isAddMarker c)
      ∧ last calls
        = Some (setTrackPanZoom imuTrack
                  {| rangeStart := 0.75%float;
                     pixelsPerSecond := val 16%float |}).
Proof.
  assert (timeSeries imuTrack !! 0%nat
          = Some {| timestampStart := 0%float; timestampEnd := 10%float |})
    as Hseries by reflexivity.
  split.
  - destruct (click_or_pan (pointerAt 100) imuTrack 5%float 20%float
                0%float 0%float 9%nat [panTo 101; panTo 98] _
                Hseries eq_refl eq_refl) as (calls & -> & Hclick & _).
    f_equal. apply Hclick. repeat constructor.
  - destruct (click_or_pan (pointerAt 100) imuTrack 5%float 16%float
                0.5%float 0%float 9%nat
                [panTo 101; panTo 104; panTo 96] _
                Hseries eq_refl eq_refl) as (calls & Hrun & _ & Hpan).
    exists calls. split; [exact Hrun|].
    destruct Hpan as (Hsome & Hall & Hlast).
    + right. left. reflexivity.
    + split; [exact Hsome|]. split; [intros c Hc; by apply Hall|].
      apply (Hlast (panTo 96) eq_refl).
Defined.

(** *** The candidate of a correspondence drag *)

(** The view a release leaves behind. *)
Definition released : AlignmentViewState :=
  {| isCreatingCorrespondence := val false; markerStartKnob := null;
     markerStart := null; markerTarget := null; currentPosition := null |}.

(** One move event, from a state whose [markerStart] is the pressed marker:
    the handler does not throw, keeps [markerStart], makes no store call,
    and leaves as target either no marker or a marker other than the
    pressed one whose track index is one off. *)
Lemma correspondenceMove_step (env : Stores) (marker : Marker)
    (e : MouseEvent) (st : AlignmentViewState) (calls : list StoreCall) :
  markerStart st = val marker →
  ∃ st',
    correspondenceMove env marker e (Some (st, calls)) = Some (st', calls)
    ∧ markerStart st' = val marker
    ∧ (∀ c, markerTarget st' = val c →
            marker_ref c ≠ marker_ref marker
            ∧ Z.abs (trackIndex env c - trackIndex env marker) = 1)
    ∧ (∀ c, findCandidateMarker env e = val c →
            Z.abs (trackIndex env c - trackIndex env marker) ≠ 1 →
            markerTarget st' = null).
Proof.
  intros Hstart. unfold correspondenceMove. rewrite Hstart.
  destruct (findCandidateMarker env e) as [| |c]; cbn [sameMarker].
  - eexists. split; [reflexivity|]. cbn. split; [done|]. split; done.
  - eexists. split; [reflexivity|]. cbn. split; [done|]. split; done.
  - destruct (bool_decide (marker_ref c = marker_ref marker)) eqn:Hsame.
    + eexists. split; [reflexivity|]. cbn. split; [done|]. split; done.
    + apply bool_decide_eq_false in Hsame.
      destruct (bool_decide (trackIndex env c = trackIndex env marker - 1)
                || bool_decide (trackIndex env c = trackIndex env marker + 1))
        eqn:Hadj; cbn [negb].
      * eexists. split; [reflexivity|]. cbn. split; [done|].
        apply orb_true_iff in Hadj.
        rewrite !bool_decide_eq_true in Hadj. split.
        -- intros c' [= <-]. split; [done|]. lia.
        -- intros c' [= <-] Hfar. lia.
      * eexists. split; [reflexivity|]. cbn. split; [done|]. split; done.
Qed.

Lemma dragging_snoc (env : Stores) (marker : Marker) (knob : Knob)
    (moves : list MouseEvent) (e : MouseEvent) (v : View) :
  dragging env marker knob (moves ++ [e]) v
  = correspondenceMove env marker e (dragging env marker knob moves v).
Proof. unfold dragging. by rewrite foldl_app. Qed.

(** The invariant of the drag. *)
Lemma dragging_invariant (env : Stores) (marker : Marker) (knob : Knob)
    (moves : list MouseEvent) (v : View) :
  ∃ st,
    dragging env marker knob moves v = Some (st, v.2 ++ [selectMarker marker])
    ∧ markerStart st = val marker
    ∧ (∀ c, markerTarget st = val c →
            marker_ref c ≠ marker_ref marker
            ∧ Z.abs (trackIndex env c - trackIndex env marker) = 1).
Proof.
  induction moves as [|e moves IH] using rev_ind.
  - eexists. split; [reflexivity|]. cbn. split; done.
  - destruct IH as (st & Hrun & Hstart & _).
    rewrite dragging_snoc, Hrun.
    destruct (correspondenceMove_step env marker e st
                (v.2 ++ [selectMarker marker]) Hstart)
      as (st' & -> & Hstart' & Htarget & _).
    eauto.
Qed.

(** C8. During a correspondence drag started from the knob of [marker],
    after any sequence of move events the handlers have not thrown and have
    made no store call beyond the initial selection, and the candidate
    target is never the start marker itself and never a marker whose track
    index (position of its track in [projectStore.tracks]) differs from the
    start marker's track index by anything other than exactly 1; a move
    over a marker whose track is not at distance 1 leaves the candidate
    [null]; and a release while the candidate is [null] adds no
    correspondence. *)
Theorem correspondence_candidate (env : Stores) (marker : Marker)
    (knob : Knob) (moves : list MouseEvent) (v : View) :
  ∃ st : AlignmentViewState,
    dragging env marker knob moves v = Some (st, v.2 ++ [selectMarker marker])
    ∧ (∀ c, markerTarget st = val c →
            marker_ref c ≠ marker_ref marker
            ∧ Z.abs (trackIndex env c - trackIndex env marker) = 1)
    ∧ (∀ before e c,
         moves = before ++ [e] →
         findCandidateMarker env e = val c →
         Z.abs (trackIndex env c - trackIndex env marker) ≠ 1 →
         markerTarget st = null)
    ∧ (markerTarget st = null →
       startCreatingCorrespondence env marker knob moves v
       = Some (released, v.2 ++ [selectMarker marker])).
Proof.
  destruct (dragging_invariant env marker knob moves v)
    as (st & Hrun & Hstart & Htarget).
  exists st. split; [exact Hrun|]. split; [exact Htarget|]. split.
  - intros before e c -> Hover Hfar.
    destruct (dragging_invariant env marker knob before v)
      as (st0 & Hrun0 & Hstart0 & _).
    rewrite dragging_snoc, Hrun0 in Hrun.
    destruct (correspondenceMove_step env marker e st0
                (v.2 ++ [selectMarker marker]) Hstart0)
      as (st' & Hstep & _ & _ & Hnull).
    rewrite Hstep in Hrun. injection Hrun as <-. by eapply Hnull.
  - intros Hnull. unfold startCreatingCorrespondence, startDragging.
    unfold dragging in Hrun. rewrite Hrun. unfold correspondenceUp.
    rewrite Hnull. reflexivity.
Qed.

(** Three tracks in visible order, a marker on each of the first and the
    third and two on the second. *)
Definition videoTrack : Track :=
  {| track_id := "video"; timeSeries := []; isAlignedToReferenceTrack := true |}.

Definition gyroTrack : Track :=
  {| track_id := "gyro"; timeSeries := []; isAlignedToReferenceTrack := false |}.

Definition onImu (ref : nat) : Marker :=
  {| marker_ref := ref; localTimestamp := 1%float; track := imuTrack |}.

Definition onVideo (ref : nat) : Marker :=
  {| marker_ref := ref; localTimestamp := 2%float; track := videoTrack |}.

Definition onGyro (ref : nat) : Marker :=
  {| marker_ref := ref; localTimestamp := 3%float; track := gyroTrack |}.

Definition threeTracks : Stores :=
  {| markers := [onImu 1; onVideo 2; onVideo 3; onGyro 4];
     tracks := [imuTrack; videoTrack; gyroTrack];
     rectLeft := 10%float; rectTop := 20%float |}.

Definition overMarker (index : Z) : MouseEvent :=
  {| clientX := 50%float; clientY := 60%float;
     data_type := Some "marker"; data_marker_index := Some index |}.

(** Dragging from the marker on the first track over the marker on the
    third: the candidate is [null] and the release adds nothing. *)
Lemma correspondence_candidate_witness :
  startCreatingCorrespondence threeTracks (onImu 1) bottom
    [overMarker 1; overMarker 3] (initialState, [])
  = Some (released, [selectMarker (onImu 1)]).
Proof.
  destruct (correspondence_candidate threeTracks (onImu 1) bottom
              [overMarker 1; overMarker 3] (initialState, []))
    as (st & Hrun & _ & Hfar & Hrelease).
  apply Hrelease.
  apply (Hfar [overMarker 1] (overMarker 3) (onGyro 4)).
  - reflexivity.
  - reflexivity.
  - vm_compute. discriminate.
Defined.

Example adjacent_candidate_kept :
  ∃ st calls,
    dragging threeTracks (onImu 1) bottom [overMarker 3; overMarker 2]
      (initialState, []) = Some (st, calls)
    ∧ markerTarget st = val (onVideo 3).
Proof. eexists _, _. split; reflexivity. Qed.

(** *** How a correspondence drag ends *)

(** A move over a marker other than the pressed one, on a track at index
    distance 1, makes that marker the target. *)
Lemma correspondenceMove_accepts (env : Stores) (marker c : Marker)
    (e : MouseEvent) (st : AlignmentViewState) (calls : list StoreCall) :
  markerStart st = val marker →
  findCandidateMarker env e = val c →
  marker_ref c ≠ marker_ref marker →
  Z.abs (trackIndex env c - trackIndex env marker) = 1 →
  ∃ st', correspondenceMove env marker e (Some (st, calls)) = Some (st', calls)
         ∧ markerTarget st' = val c.
Proof.
  intros Hstart Hover Hother Hadj. unfold correspondenceMove.
  rewrite Hstart, Hover. cbn [sameMarker].
  rewrite (bool_decide_eq_false_2 _ Hother).
  assert (bool_decide (trackIndex env c = trackIndex env marker - 1)
          || bool_decide (trackIndex env c = trackIndex env marker + 1)
          = true) as ->.
  { apply orb_true_iff. rewrite !bool_decide_eq_true. lia. }
  cbn [negb]. eexists. split; reflexivity.
Qed.

(** A move over an element that names no marker of the array makes
    [undefined] the target. *)
Lemma correspondenceMove_undefined (env : Stores) (marker : Marker)
    (e : MouseEvent) (st : AlignmentViewState) (calls : list StoreCall) :
  markerStart st = val marker →
  findCandidateMarker env e = undefined →
  ∃ st', correspondenceMove env marker e (Some (st, calls)) = Some (st', calls)
         ∧ markerTarget st' = undefined.
Proof.
  intros Hstart Hover. unfold correspondenceMove.
  rewrite Hstart, Hover. cbn [sameMarker]. eexists. split; reflexivity.
Qed.

Lemma findCandidateMarker_out_of_range (env : Stores) (e : MouseEvent)
    (index : Z) :
  data_type e = Some "marker" → data_marker_index e = Some index →
  index < 0 ∨ Z.of_nat (length (markers env)) ≤ index →
  findCandidateMarker env e = undefined.
Proof.
  intros Hty Hidx Hout. unfold findCandidateMarker, at_index.
  rewrite Hty, Hidx. destruct (decide ("marker" = "marker")); [|done].
  destruct (decide (0 ≤ index)); [|done].
  rewrite lookup_ge_None_2; [done|lia].
Qed.

(** X12. Releasing over a marker other than the pressed one, on a track at
    index distance 1, adds the correspondence between the two markers and
    selects it; these are the only store calls of the gesture besides the
    initial selection, whatever moves came before. *)
Theorem correspondence_committed (env : Stores) (marker c : Marker)
    (knob : Knob) (before : list MouseEvent) (e : MouseEvent) (v : View) :
  findCandidateMarker env e = val c →
  marker_ref c ≠ marker_ref marker →
  Z.abs (trackIndex env c - trackIndex env marker) = 1 →
  startCreatingCorrespondence env marker knob (before ++ [e]) v
  = Some (released,
          v.2 ++ [selectMarker marker]
              ++ [addMarkerCorrespondence marker (val c);
                  selectMarkerCorrespondence marker (val c)]).
Proof.
  intros Hover Hother Hadj.
  destruct (dragging_invariant env marker knob before v)
    as (st & Hrun & Hstart & _).
  unfold startCreatingCorrespondence, startDragging.
  unfold dragging in Hrun. rewrite foldl_app, Hrun. cbn [foldl].
  destruct (correspondenceMove_accepts env marker c e st
              (v.2 ++ [selectMarker marker]) Hstart Hover Hother Hadj)
    as (st' & -> & Htarget).
  unfold correspondenceUp. rewrite Htarget. cbn [sameMarker].
  rewrite (bool_decide_eq_false_2 _ Hother). cbn [negb andb].
  by rewrite <- app_assoc.
Qed.

(** X13. The outcome of the gesture depends on the last move event only: the
    moves before it leave no trace in the released view or in the store
    calls. *)
Theorem correspondence_last_move_decides (env : Stores) (marker : Marker)
    (knob : Knob) (before : list MouseEvent) (e : MouseEvent) (v : View) :
  startCreatingCorrespondence env marker knob (before ++ [e]) v
  = startCreatingCorrespondence env marker knob [e] v.
Proof.
  destruct (dragging_invariant env marker knob before v)
    as (st & Hrun & Hstart & _).
  unfold startCreatingCorrespondence, startDragging.
  unfold dragging in Hrun. rewrite foldl_app, Hrun. cbn [foldl].
  unfold correspondenceMove, pressed. rewrite Hstart.
  cbn [markerStart markerStartKnob snd].
  destruct (findCandidateMarker env e) as [| |c]; cbn [sameMarker];
    [reflexivity|reflexivity|].
  destruct (bool_decide (marker_ref c = marker_ref marker));
    [reflexivity|].
  destruct (negb _); reflexivity.
Qed.

(** X14. The release only tests the target against the pressed marker and
    against [null].  When the last move was over an element whose marker
    index is outside the markers array the target is [undefined], and the
    release calls [addMarkerCorrespondence] with [undefined] as second
    marker. *)
Theorem correspondence_undefined_target (env : Stores) (marker : Marker)
    (knob : Knob) (before : list MouseEvent) (e : MouseEvent) (index : Z)
    (v : View) :
  data_type e = Some "marker" →
  data_marker_index e = Some index →
  index < 0 ∨ Z.of_nat (length (markers env)) ≤ index →
  startCreatingCorrespondence env marker knob (before ++ [e]) v
  = Some (released,
          v.2 ++ [selectMarker marker]
              ++ [addMarkerCorrespondence marker undefined;
                  selectMarkerCorrespondence marker undefined]).
Proof.
  intros Hty Hidx Hout.
  pose proof (findCandidateMarker_out_of_range env e index Hty Hidx Hout)
    as Hover.
  destruct (dragging_invariant env marker knob before v)
    as (st & Hrun & Hstart & _).
  unfold startCreatingCorrespondence, startDragging.
  unfold dragging in Hrun. rewrite foldl_app, Hrun. cbn [foldl].
  destruct (correspondenceMove_undefined env marker e st
              (v.2 ++ [selectMarker marker]) Hstart Hover)
    as (st' & -> & Htarget).
  unfold correspondenceUp. rewrite Htarget. cbn [sameMarker negb andb].
  by rewrite <- app_assoc.
Qed.

Lemma correspondence_committed_witness :
  startCreatingCorrespondence threeTracks (onImu 1) bottom
    [overMarker 3; overMarker 2] (initialState, [])
  = Some (released,
          [selectMarker (onImu 1);
           addMarkerCorrespondence (onImu 1) (val (onVideo 3));
           selectMarkerCorrespondence (onImu 1) (val (onVideo 3))]).
Proof.
  apply (correspondence_committed threeTracks (onImu 1) (onVideo 3) bottom
           [overMarker 3] (overMarker 2) (initialState, [])).
  - reflexivity.
  - vm_compute. lia.
  - vm_compute. reflexivity.
Defined.

Lemma correspondence_undefined_target_witness :
  startCreatingCorrespondence threeTracks (onImu 1) top
    [overMarker 2; overMarker 4] (initialState, [])
  = Some (released,
          [selectMarker (onImu 1);
           addMarkerCorrespondence (onImu 1) undefined;
           selectMarkerCorrespondence (onImu 1) undefined]).
Proof.
  apply (correspondence_undefined_target threeTracks (onImu 1) top
           [overMarker 2] (overMarker 4) 4 (initialState, [])).
  - reflexivity.
  - reflexivity.
  - right. vm_compute. discriminate.
Defined.

(** *** How a pan gesture unfolds *)

(** The closure state after moves of which [mv] is the first to reach 3
    pixels. *)
Lemma panMoves_from (track0 : Track)
    (pps rangeStart0 referenceRangeStart x0 : float)
    (before after : list PanMove) (mv : PanMove) :
  Forall (below3 x0) before → reaches3 x0 mv →
  foldl (λ s e, panMove track0 pps rangeStart0 referenceRangeStart x0 e s)
        (false, []) (before ++ mv :: after)
  = (true, panCall track0 pps rangeStart0 referenceRangeStart x0 <$> mv :: after).
Proof.
  intros Hstill Hreach.
  rewrite foldl_app, panMoves_still by done. cbn [foldl].
  unfold panMove at 2. cbn [fst snd orb].
  by rewrite (bool_decide_eq_true_2 _ Hreach), panMoves_moved.
Qed.

(** X15. A press within the bounds, then moves of which [mv] is the first to
    reach 3 pixels: the store calls of the gesture are exactly one
    pan-zoom call for [mv] and one for every move after it, each moving
    the range start to where the press found it minus the displacement of
    that move from the press point divided by the scale, in double
    arithmetic; the moves before [mv] and the release add none. *)
Theorem pan_calls (event : MouseEvent) (track0 : Track)
    (time pps rangeStart0 referenceRangeStart : float) (newRef : nat)
    (before after : list PanMove) (mv : PanMove) (series : TimeSeries) :
  timeSeries track0 !! 0%nat = Some series →
  (timestampStart series <=? time)%float = true →
  (time <=? timestampEnd series)%float = true →
  Forall (below3 (clientX event)) before →
  reaches3 (clientX event) mv →
  onTrackMouseDown event track0 time pps rangeStart0 referenceRangeStart
    newRef (before ++ mv :: after)
  = Some ((λ mv' : PanMove,
             let dx := (clientX (pan_event mv') - clientX event)%float in
             if isAlignedToReferenceTrack track0
             then setReferenceTrackPanZoom
                    {| rangeStart :=
                         (referenceRangeStart
                          - dx / referencePixelsPerSecond mv')%float;
                       pixelsPerSecond := null |}
             else setTrackPanZoom track0
                    {| rangeStart := (rangeStart0 - dx / pps)%float;
                       pixelsPerSecond := val pps |})
            <$> mv :: after).
Proof.
  intros Hseries Hstart Hend Hstill Hreach.
  rewrite (onTrackMouseDown_within _ _ _ _ _ _ _ _ series) by done.
  rewrite panMoves_from by done. unfold panUp. cbn [fst snd negb].
  reflexivity.
Qed.

Lemma panCall_at_press (track0 : Track)
    (pps rangeStart0 referenceRangeStart : float) (mv : PanMove) :
  is_finite (clientX (pan_event mv)) = true →
  (let scale := if isAlignedToReferenceTrack track0
                then referencePixelsPerSecond mv else pps in
   let start := if isAlignedToReferenceTrack track0
                then referenceRangeStart else rangeStart0 in
   (0 <? scale)%float = true
   ∨ (scale <? 0)%float = true ∧ start ≠ neg_zero) →
  panCall track0 pps rangeStart0 referenceRangeStart (clientX (pan_event mv)) mv
  = if isAlignedToReferenceTrack track0
    then setReferenceTrackPanZoom
           {| rangeStart := referenceRangeStart; pixelsPerSecond := null |}
    else setTrackPanZoom track0
           {| rangeStart := rangeStart0; pixelsPerSecond := val pps |}.
Proof.
  intros Hfinite Hscale. unfold panCall. rewrite (sub_diag_finite _ Hfinite).
  cbv zeta in Hscale.
  destruct (isAlignedToReferenceTrack track0);
    destruct Hscale as [Hpos|[Hneg Hstart]];
    by rewrite ?(div_zero_pos _ Hpos), ?sub_zero,
               ?(div_zero_neg _ Hneg), ?(sub_neg_zero _ Hstart).
Qed.

(** X16. Panning is relative to the press, not to the previous move: when the
    gesture has moved and its last move event is back at the press
    position, the last store call of the gesture asks for the range start
    the press found (on the track's own pan-zoom when the track is not
    aligned to the reference track, on the reference pan-zoom when it is).
    The press position must be a finite number and the scale divided by a
    number other than zero: the displacement is then [+0] and the time
    shift a zero.  Under a negative scale the shift is [-0], and taking it
    from a range start [-0] gives [+0], so that one start is set aside. *)
Theorem pan_back_restores (event : MouseEvent) (track0 : Track)
    (time pps rangeStart0 referenceRangeStart : float) (newRef : nat)
    (before middle : list PanMove) (mv back : PanMove)
    (series : TimeSeries) :
  timeSeries track0 !! 0%nat = Some series →
  (timestampStart series <=? time)%float = true →
  (time <=? timestampEnd series)%float = true →
  Forall (below3 (clientX event)) before →
  reaches3 (clientX event) mv →
  clientX (pan_event back) = clientX event →
  is_finite (clientX event) = true →
  (let scale := if isAlignedToReferenceTrack track0
                then referencePixelsPerSecond back else pps in
   let start := if isAlignedToReferenceTrack track0
                then referenceRangeStart else rangeStart0 in
   (0 <? scale)%float = true
   ∨ (scale <? 0)%float = true ∧ start ≠ neg_zero) →
  ∃ calls,
    onTrackMouseDown event track0 time pps rangeStart0 referenceRangeStart
      newRef (before ++ mv :: middle ++ [back]) = Some calls
    ∧ last calls
      = Some (if isAlignedToReferenceTrack track0
              then setReferenceTrackPanZoom
                     {| rangeStart := referenceRangeStart;
                        pixelsPerSecond := null |}
              else setTrackPanZoom track0
                     {| rangeStart := rangeStart0;
                        pixelsPerSecond := val pps |}).
Proof.
  intros Hseries Hstart Hend Hstill Hreach Hback Hfinite Hscale.
  rewrite (onTrackMouseDown_within _ _ _ _ _ _ _ _ series) by done.
  rewrite panMoves_from by done. unfold panUp. cbn [fst snd negb].
  eexists. split; [reflexivity|].
  rewrite fmap_cons, fmap_app, app_comm_cons. cbn [fmap list_fmap].
  rewrite last_snoc, <- Hback. f_equal. apply panCall_at_press; [|done].
  by rewrite Hback.
Qed.

Lemma pan_calls_witness :
  onTrackMouseDown (pointerAt 100) imuTrack 5%float 16%float
    0.5%float 0%float 9%nat ([panTo 101] ++ panTo 104 :: [panTo 96])
  = Some [setTrackPanZoom imuTrack
            {| rangeStart := 0.25%float; pixelsPerSecond := val 16%float |};
          setTrackPanZoom imuTrack
            {| rangeStart := 0.75%float; pixelsPerSecond := val 16%float |}].
Proof.
  apply (pan_calls (pointerAt 100) imuTrack 5%float 16%float
           0.5%float 0%float 9%nat [panTo 101] [panTo 96] (panTo 104)
           {| timestampStart := 0%float; timestampEnd := 10%float |}).
  - reflexivity.
  - reflexivity.
  - reflexivity.
  - repeat constructor.
  - reflexivity.
Defined.

Lemma pan_back_restores_witness :
  ∃ calls,
    onTrackMouseDown (pointerAt 100) imuTrack 5%float 20%float
      7%float 0%float 9%nat
      ([panTo 101] ++ panTo 104 :: [panTo 90] ++ [panTo 100]) = Some calls
    ∧ last calls
      = Some (setTrackPanZoom imuTrack
                {| rangeStart := 7%float;
                   pixelsPerSecond := val 20%float |}).
Proof.
  apply (pan_back_restores (pointerAt 100) imuTrack 5%float 20%float
           7%float 0%float 9%nat [panTo 101] [panTo 90] (panTo 104)
           (panTo 100)
           {| timestampStart := 0%float; timestampEnd := 10%float |}).
  - reflexivity.
  - reflexivity.
  - reflexivity.
  - repeat constructor.
  - reflexivity.
  - reflexivity.
  - reflexivity.
  - left. reflexivity.
Defined.

(** *** Dragging a marker *)

(** The store calls of the handler [renderMarkers] puts on the line of a
    marker. *)
Inductive MarkerDragCall : Type :=
| dragSelectMarker (m : Marker)
| updateMarker (m : Marker) (newTimestamp : float) (third fourth : bool)
| setReferenceTrackTimeCursor (t : float)
| setTimeCursor (t0 : Track) (t : float).

(** What the move handler reads for one move event: the time
    [getMarkerLayout(marker, layoutMap).xScaleInvert(...)] gives for the
    pointer (the handler is only rendered for a marker that has a layout),
    and the answer of [projectStore.isReferenceTrack(marker.track)]. *)
Record MarkerMove : Type := {
  newT : float;
  onReferenceTrack : bool
}.

(** The move handler; the closure state is the flag [isFirstUpdate] and the
    calls made. *)
Definition markerMove (marker : Marker) (mv : MarkerMove)
    (s : bool * list MarkerDragCall) : bool * list MarkerDragCall :=
  (false,
   s.2 ++ [updateMarker marker (newT mv) false s.1;
           if onReferenceTrack mv then setReferenceTrackTimeCursor (newT mv)
           else setTimeCursor (track marker) (newT mv)]).

(** The up handler; [finalTimestamp] is [marker.localTimestamp] as the
    stores have left it. *)
Definition markerUp (marker : Marker) (finalTimestamp : float)
    (s : bool * list MarkerDragCall) : bool * list MarkerDragCall :=
  (s.1, s.2 ++ [updateMarker marker finalTimestamp true false]).

(** [onMouseDown] on the line of a marker. *)
Definition onMarkerMouseDown (marker : Marker) (finalTimestamp : float)
    (moves : list MarkerMove) : list MarkerDragCall :=
  (startDragging (markerMove marker) (markerUp marker finalTimestamp) moves
     (true, [dragSelectMarker marker])).2.

(** The calls one move makes when it is, or is not, the first. *)
Definition moveCalls (marker : Marker) (first : bool) (mv : MarkerMove)
    : list MarkerDragCall :=
  [updateMarker marker (newT mv) false first;
   if onReferenceTrack mv then setReferenceTrackTimeCursor (newT mv)
   else setTimeCursor (track marker) (newT mv)].

Lemma markerMove_calls (marker : Marker) (mv : MarkerMove) (first : bool)
    (calls : list MarkerDragCall) :
  markerMove marker mv (first, calls)
  = (false, calls ++ moveCalls marker first mv).
Proof. reflexivity. Qed.

Lemma markerMoves_later (marker : Marker) (moves : list MarkerMove)
    (calls : list MarkerDragCall) :
  foldl (λ s e, markerMove marker e s) (false, calls) moves
  = (false, calls ++ concat (moveCalls marker false <$> moves)).
Proof.
  revert calls. induction moves as [|mv moves IH]; intros calls.
  - cbn. by rewrite app_nil_r.
  - cbn [foldl fmap list_fmap concat].
    by rewrite markerMove_calls, IH, <- app_assoc.
Qed.

(** X18. A marker drag selects the marker, then makes for every move event one
    [updateMarker] call, whose fourth argument is true for the first move
    and false for every later one, each followed by one time-cursor call,
    and ends on release with a single [updateMarker] call whose third
    argument is true.  A press released without a move makes only the
    selection and that last call. *)
Theorem marker_drag_calls (marker : Marker) (finalTimestamp : float)
    (moves : list MarkerMove) :
  onMarkerMouseDown marker finalTimestamp moves
  = dragSelectMarker marker
      :: match moves with
         | [] => []
         | mv :: rest =>
             moveCalls marker true mv
               ++ concat (moveCalls marker false <$> rest)
         end
      ++ [updateMarker marker finalTimestamp true false].
Proof.
  unfold onMarkerMouseDown, startDragging, markerUp.
  destruct moves as [|mv rest]; [reflexivity|].
  cbn [foldl]. rewrite markerMove_calls, markerMoves_later. cbn [snd].
  by rewrite <- !app_assoc.
Qed.

End AlignmentView.
